(** * permacache: a two-tier content-addressable cache

    Shallow embedding of [index.js] (class [Cache]) and the properties of
    its RAM tier: the byte budget and its eviction pass, the sliding window
    of path entries, content addressing, and the outcomes of [put] and
    [getByHash].

    Conventions of the embedding.
    - JavaScript numbers are integers here ([Z]); payload lengths, time
      stamps in milliseconds and the budgets all stay far below 2^53, where
      the arithmetic of the source is exact.
    - A [Buffer] is a list of bytes; [Buffer.compare(a,b)===0] is equality.
    - The objects [_caches] and [_paths] are association lists kept in
      property-creation order, the order [for ... in] enumerates string keys
      that are not array indices (content hashes are 64 hexadecimal digits).
      Only own properties are modelled: a key such as ["constructor"], which
      every object inherits, is outside the embedding.
    - [Date.getTime()] is a parameter [now] of every operation that reads the
      clock; what the long-term backend answers to a read is a parameter of
      the operation that awaits it, and the writes an operation starts are
      part of its result.
    - A JavaScript exception is an explicit completion ([Throw]) next to the
      state the statement leaves behind.
    - The synchronous stretches of the source are atomic; a run applies them
      one after the other. *)

From Stdlib Require Import ZArith NArith List Bool Lia.
From Stdlib.Strings Require Import String Ascii Byte.
Import ListNotations.
Local Open Scope Z_scope.

(** ** SHA-256 ([crypto.createHash('sha256').update(data).digest('hex')]) *)

Module SHA256.
Local Open Scope N_scope.

Definition w32 (x : N) : N := N.land x 0xFFFFFFFF.
Definition add32 (x y : N) : N := w32 (x + y).
Definition rotr (n x : N) : N := w32 (N.lor (N.shiftr x n) (N.shiftl x (32 - n))).

Definition Ch (x y z : N) : N := N.lxor (N.land x y) (N.land (N.lxor x 0xFFFFFFFF) z).
Definition Maj (x y z : N) : N := N.lxor (N.lxor (N.land x y) (N.land x z)) (N.land y z).
Definition Sigma0 (x : N) : N := N.lxor (N.lxor (rotr 2 x) (rotr 13 x)) (rotr 22 x).
Definition Sigma1 (x : N) : N := N.lxor (N.lxor (rotr 6 x) (rotr 11 x)) (rotr 25 x).
Definition sigma0 (x : N) : N := N.lxor (N.lxor (rotr 7 x) (rotr 18 x)) (N.shiftr x 3).
Definition sigma1 (x : N) : N := N.lxor (N.lxor (rotr 17 x) (rotr 19 x)) (N.shiftr x 10).

(** The first [n] primes, by trial division. *)
Fixpoint primes_from (fuel : nat) (candidate : N) (found : list N) (n : nat) : list N :=
  match fuel, n with
  | S fuel', S n' =>
      if forallb (fun p => negb (candidate mod p =? 0)) found
      then primes_from fuel' (candidate + 1) (found ++ [candidate]) n'
      else primes_from fuel' (candidate + 1) found n
  | _, _ => found
  end.

Definition primes (n : nat) : list N := primes_from 400 2 [] n.

(** The largest [r] with [r ^ 3 <= x], bit by bit from bit [bits - 1] down. *)
Fixpoint cube_root (bits : nat) (x r : N) : N :=
  match bits with
  | O => r
  | S bits' =>
      let r' := N.lor r (N.shiftl 1 (N.of_nat bits')) in
      cube_root bits' x (if r' * r' * r' <=? x then r' else r)
  end.

(** The round constants: the first 32 bits of the fractional parts of the
    cube roots of the first 64 primes. *)
Definition K : list N :=
  Eval vm_compute in map (fun p => w32 (cube_root 36 (N.shiftl p 96) 0)) (primes 64).

(** The initial hash value: the first 32 bits of the fractional parts of
    the square roots of the first 8 primes. *)
Definition H0 : list N :=
  Eval vm_compute in map (fun p => w32 (N.sqrt (N.shiftl p 64))) (primes 8).

(** Big-endian encoding of [x] on [n] bytes. *)
Fixpoint be_bytes (n : nat) (x : N) : list N :=
  match n with
  | O => []
  | S n' => be_bytes n' (N.shiftr x 8) ++ [N.land x 0xFF]
  end.

(** The message followed by 0x80, zeros up to 56 modulo 64, and its length
    in bits on eight bytes. *)
Definition pad (msg : list N) : list N :=
  let len := N.of_nat (List.length msg) in
  let zeros := N.to_nat ((119 - len mod 64) mod 64) in
  msg ++ [0x80] ++ repeat 0 zeros ++ be_bytes 8 (8 * len).

Fixpoint words (n : nat) (bs : list N) : list N :=
  match n, bs with
  | S n', b0 :: b1 :: b2 :: b3 :: rest =>
      (N.shiftl b0 24 + N.shiftl b1 16 + N.shiftl b2 8 + b3) :: words n' rest
  | _, _ => []
  end.

(** The schedule, most recent word first: [ws] holds W(t-1), W(t-2), ... *)
Fixpoint schedule (n : nat) (ws : list N) : list N :=
  match n with
  | O => ws
  | S n' =>
      let w := add32 (add32 (sigma1 (nth 1 ws 0)) (nth 6 ws 0))
                     (add32 (sigma0 (nth 14 ws 0)) (nth 15 ws 0)) in
      schedule n' (w :: ws)
  end.

Definition state : Type := (N * N * N * N * N * N * N * N)%type.

Definition round (st : state) (kw : N * N) : state :=
  let '(a, b, c, d, e, f, g, h) := st in
  let t1 := add32 (add32 (add32 h (Sigma1 e)) (add32 (Ch e f g) (fst kw))) (snd kw) in
  let t2 := add32 (Sigma0 a) (Maj a b c) in
  (add32 t1 t2, a, b, c, add32 d t1, e, f, g).

Definition compress (st : state) (block : list N) : state :=
  let w := rev (schedule 48 (rev (words 16 block))) in
  let '(a, b, c, d, e, f, g, h) := fold_left round (combine K w) st in
  let '(a0, b0, c0, d0, e0, f0, g0, h0) := st in
  (add32 a0 a, add32 b0 b, add32 c0 c, add32 d0 d,
   add32 e0 e, add32 f0 f, add32 g0 g, add32 h0 h).

Fixpoint blocks (n : nat) (st : state) (bs : list N) : state :=
  match n with
  | O => st
  | S n' => blocks n' (compress st (firstn 64 bs)) (skipn 64 bs)
  end.

Definition digest (msg : list N) : list N :=
  let p := pad msg in
  let st0 : state :=
    (nth 0 H0 0, nth 1 H0 0, nth 2 H0 0, nth 3 H0 0,
     nth 4 H0 0, nth 5 H0 0, nth 6 H0 0, nth 7 H0 0) in
  let '(a, b, c, d, e, f, g, h) := blocks (Nat.div (List.length p) 64) st0 p in
  [a; b; c; d; e; f; g; h].

Definition hex_digit (d : N) : ascii :=
  match d with
  | 0 => "0" | 1 => "1" | 2 => "2" | 3 => "3" | 4 => "4" | 5 => "5" | 6 => "6" | 7 => "7"
  | 8 => "8" | 9 => "9" | 10 => "a" | 11 => "b" | 12 => "c" | 13 => "d" | 14 => "e" | _ => "f"
  end%char.

Fixpoint hex (n : nat) (x : N) (tail : string) : string :=
  match n with
  | O => tail
  | S n' => hex n' (N.shiftr x 4) (String (hex_digit (N.land x 0xF)) tail)
  end.

Definition hexdigest (msg : list N) : string :=
  fold_right (fun w acc => hex 8 w acc) EmptyString (digest msg).

End SHA256.

(** A [Buffer]: an immutable sequence of bytes. *)
Definition Buffer : Type := list byte.

(** [crypto.createHash('sha256').update(data).digest('hex')]. *)
Definition sha256_hex (data : Buffer) : string :=
  SHA256.hexdigest (map Byte.to_N data).

Arguments sha256_hex : simpl never.

Definition len (data : Buffer) : Z := Z.of_nat (List.length data).

(** ** JavaScript objects used as maps

    Keys in creation order. [get o k] is [o[k]] ([None] for [undefined]),
    [set o k v] is [o[k] = v] (an existing key keeps its place, a new key
    goes last) and [delete o k] is [delete o[k]]. *)

Section Obj.
Context {V : Type}.

Fixpoint get (o : list (string * V)) (k : string) : option V :=
  match o with
  | [] => None
  | (k', v) :: o' => if String.eqb k k' then Some v else get o' k
  end.

Fixpoint set (o : list (string * V)) (k : string) (v : V) : list (string * V) :=
  match o with
  | [] => [(k, v)]
  | (k', v') :: o' =>
      if String.eqb k k' then (k, v) :: o' else (k', v') :: set o' k v
  end.

Fixpoint delete (o : list (string * V)) (k : string) : list (string * V) :=
  match o with
  | [] => []
  | (k', v') :: o' =>
      if String.eqb k k' then delete o' k else (k', v') :: delete o' k
  end.

Definition keys (o : list (string * V)) : list string := map fst o.
End Obj.

(** ** The state of a [Cache] *)

(** The two long-term backends the constructor can build. *)
Inductive Backend : Type :=
| FileSystem (folder : string)
| S3Bucket (bucket : string).

(** The [options] argument of the constructor; [None] is a missing key. *)
Record Options : Type := {
  fileLimit : option Z;
  totalLimit : option Z;
  longterm : option Backend;
  pathLimit : option Z;
  debug : option bool;
  clearCheckInterval : option Z
}.

(** [_caches[hash] = [time, data]] and [_paths[path] = [index, hash]]. *)
Record Cache : Type := mkCache {
  _fileLimit : Z;
  _totalLimit : Z;
  _longterm : option Backend;
  _pathLimit : Z;
  _debug : bool;
  _pathIndex : Z;
  _current : Z;
  _caches : list (string * (Z * Buffer));
  _paths : list (string * (Z * string));
  _scoreFunc : Z -> Z -> Z
}.

Definition with_fileLimit (v : Z) (s : Cache) : Cache :=
  mkCache v (_totalLimit s) (_longterm s) (_pathLimit s) (_debug s)
          (_pathIndex s) (_current s) (_caches s) (_paths s) (_scoreFunc s).

Definition with_totalLimit (v : Z) (s : Cache) : Cache :=
  mkCache (_fileLimit s) v (_longterm s) (_pathLimit s) (_debug s)
          (_pathIndex s) (_current s) (_caches s) (_paths s) (_scoreFunc s).

Definition with_scoreFunc (f : Z -> Z -> Z) (s : Cache) : Cache :=
  mkCache (_fileLimit s) (_totalLimit s) (_longterm s) (_pathLimit s) (_debug s)
          (_pathIndex s) (_current s) (_caches s) (_paths s) f.

(** Both RAM fields the cache tier owns: the byte count and the entries. *)
Definition with_ram (current : Z) (caches : list (string * (Z * Buffer))) (s : Cache) : Cache :=
  mkCache (_fileLimit s) (_totalLimit s) (_longterm s) (_pathLimit s) (_debug s)
          (_pathIndex s) current caches (_paths s) (_scoreFunc s).

(** Both fields of the path tier: the counter and the entries. *)
Definition with_path_tier (pathIndex : Z) (paths : list (string * (Z * string))) (s : Cache) : Cache :=
  mkCache (_fileLimit s) (_totalLimit s) (_longterm s) (_pathLimit s) (_debug s)
          pathIndex (_current s) (_caches s) paths (_scoreFunc s).

(** [x || d] on an optional number: [undefined] and [0] are falsy. *)
Definition or_default (x : option Z) (d : Z) : Z :=
  match x with
  | Some v => if v =? 0 then d else v
  | None => d
  end.

(** [Math.ceil(a / b)] for a positive [b]. *)
Definition ceil_div (a b : Z) : Z := - ((- a) / b).

(** The scoring function the constructor installs: largest values get
    removed first. *)
Definition default_scoreFunc (age size : Z) : Z := age * ceil_div size 10000.

(** [new Cache(options)]. *)
Definition new_Cache (options : Options) : Cache :=
  {| _fileLimit := or_default (fileLimit options) 100000;
     _totalLimit := or_default (totalLimit options) 500000000;
     _longterm := longterm options;
     _pathLimit := or_default (pathLimit options) 100000;
     _debug := match debug options with Some b => b | None => false end;
     _pathIndex := 0;
     _current := 0;
     _caches := [];
     _paths := [];
     _scoreFunc := default_scoreFunc |}.

(** ** Completions *)

Inductive Error : Type :=
| OversizedPayload      (* "File to large to fit in cache." *)
| NotFound              (* "requested data could not be retrieved." *)
| TypeError             (* destructuring [undefined], reading a property of [undefined] *)
| DurableWriteFailure.  (* a rejected [writePath] or [writeCache] *)

Inductive completion (A : Type) : Type :=
| Normal (a : A)
| Throw (e : Error).

Arguments Normal {A} a.
Arguments Throw {A} e.

(** ** [_storePathInRAM(path, hash)] *)

(** The [for ... in] scan for the entry that carries [removeIndex]. *)
Definition find_index (removeIndex : Z) (paths : list (string * (Z * string)))
  : option string :=
  option_map fst (find (fun kv => fst (snd kv) =? removeIndex) paths).

Definition _storePathInRAM (path hash : string) (s : Cache) : Cache :=
  match get (_paths s) path with
  | Some (index, _) =>
      with_path_tier (_pathIndex s) (set (_paths s) path (index, hash)) s
  | None =>
      let paths1 := set (_paths s) path (_pathIndex s, hash) in
      let pathIndex1 := _pathIndex s + 1 in
      if pathIndex1 >? _pathLimit s then
        let removeIndex := pathIndex1 - _pathLimit s - 1 in
        match find_index removeIndex paths1 with
        | Some victim => with_path_tier pathIndex1 (delete paths1 victim) s
        | None => with_path_tier pathIndex1 paths1 s
        end
      else with_path_tier pathIndex1 paths1 s
  end.

(** ** [_freeSpaceInRAM(size, now)] *)

(** [sorted.push([score, hash])] for every resident hash. *)
Definition scored (f : Z -> Z -> Z) (now : Z) (caches : list (string * (Z * Buffer)))
  : list (Z * string) :=
  map (fun kv => (f (now - fst (snd kv)) (len (snd (snd kv))), fst kv)) caches.

(** [Array.prototype.sort] with the comparator [a[0] - b[0]]: ascending by
    score and stable, so entries of equal score keep their relative order. *)
Fixpoint insert_sorted (x : Z * string) (l : list (Z * string)) : list (Z * string) :=
  match l with
  | [] => [x]
  | y :: l' => if fst x <? fst y then x :: l else y :: insert_sorted x l'
  end.

Definition sort (l : list (Z * string)) : list (Z * string) :=
  fold_left (fun acc x => insert_sorted x acc) l [].

(** The [while] loop. [sorted.pop()] takes the last element, so the loop
    walks [stack = rev sorted] from its head; on an empty array [pop()] is
    [undefined] and destructuring it throws. *)
Fixpoint free_loop (size : Z) (stack : list (Z * string)) (s : Cache)
  : completion unit * Cache :=
  if _current s + size >? _totalLimit s then
    match stack with
    | [] => (Throw TypeError, s)
    | (_, hash) :: stack' =>
        match get (_caches s) hash with
        | None => (Throw TypeError, s)
        | Some (_, data) =>
            free_loop size stack'
              (with_ram (_current s - len data) (delete (_caches s) hash) s)
        end
    end
  else (Normal tt, s).

Definition _freeSpaceInRAM (size now : Z) (s : Cache) : completion unit * Cache :=
  if _current s + size >? _totalLimit s then
    free_loop size (rev (sort (scored (_scoreFunc s) now (_caches s)))) s
  else (Normal tt, s).

(** ** [_storeCacheInRAM(hash, data)] *)

Definition _storeCacheInRAM (now : Z) (hash : string) (data : Buffer) (s : Cache)
  : completion bool * Cache :=
  match get (_caches s) hash with
  | Some (_, stored) =>
      (Normal true, with_ram (_current s) (set (_caches s) hash (now, stored)) s)
  | None =>
      let size := len data in
      if size >? _fileLimit s then (Normal false, s)
      else
        match _freeSpaceInRAM size now s with
        | (Throw e, s1) => (Throw e, s1)
        | (Normal _, s1) =>
            (Normal true,
             with_ram (_current s1 + size) (set (_caches s1) hash (now, data)) s1)
        end
  end.

(** ** [put(data, paths, waitForLongTermIfPutInRAM)] *)

(** [Buffer.compare(a, b)]: -1, 0 or 1 by the first differing byte, a
    proper prefix sorting first. *)
Fixpoint Buffer_compare (a b : Buffer) : Z :=
  match a, b with
  | [], [] => 0
  | [], _ :: _ => -1
  | _ :: _, [] => 1
  | x :: a', y :: b' =>
      match N.compare (Byte.to_N x) (Byte.to_N y) with
      | Lt => -1
      | Gt => 1
      | Eq => Buffer_compare a' b'
      end
  end.

(** A call the cache starts on its long-term backend. *)
Inductive Write : Type :=
| writePath (path cacheHash : string)
| writeCache (hash : string) (cacheData : Buffer).

(** How the promise returned by [put] gets settled. *)
Inductive Settlement : Type :=
| RejectNow (e : Error)          (* [reject(...)], or a throw inside the executor *)
| ResolveNow (hash : string)     (* [resolve(hash)] without looking at [waiting] *)
| AfterWaiting (hash : string).  (* [Promise.all(waiting).then(()=>resolve(hash)).catch(reject)] *)

Record PutResult : Type := {
  promise : Settlement;
  waiting : list Write;
  after_put : Cache
}.

(** One turn of [for (let path of paths)]. *)
Definition put_path (hash : string) (acc : Cache * list Write) (path : string)
  : Cache * list Write :=
  let (s, waiting) := acc in
  let differs :=
    match get (_paths s) path with
    | None => true
    | Some (_, h) => negb (String.eqb h hash)
    end in
  if differs then
    (_storePathInRAM path hash s,
     match _longterm s with
     | Some _ => waiting ++ [writePath path hash]
     | None => waiting
     end)
  else (s, waiting).

(** The test that guards [waiting.push(this._longterm.writeCache(hash, data))]. *)
Definition pushes_writeCache (hash : string) (data : Buffer) (s : Cache) : bool :=
  match get (_caches s) hash with
  | None => true
  | Some (_, stored) => Buffer_compare stored data =? 0
  end.

Definition put (now : Z) (data : Buffer) (paths : list string) (wait : bool) (s : Cache)
  : PutResult :=
  if match _longterm s with None => true | Some _ => false end && (len data >? _fileLimit s)
  then {| promise := RejectNow OversizedPayload; waiting := []; after_put := s |}
  else
    let hash := sha256_hex data in
    let (s1, waiting1) := fold_left (put_path hash) paths (s, []) in
    let waiting2 :=
      match _longterm s1 with
      | Some _ =>
          if pushes_writeCache hash data s1
          then waiting1 ++ [writeCache hash data]
          else waiting1
      | None => waiting1
      end in
    match _storeCacheInRAM now hash data s1 with
    | (Throw e, s2) =>
        {| promise := RejectNow e; waiting := waiting2; after_put := s2 |}
    | (Normal inRAM, s2) =>
        {| promise := if negb wait && inRAM then ResolveNow hash else AfterWaiting hash;
           waiting := waiting2;
           after_put := s2 |}
    end.

(** What the caller of [put] observes once the writes in [waiting] have
    ended, [outcomes] telling for each of them whether it was fulfilled. *)
Definition settle (p : Settlement) (outcomes : list bool) : completion string :=
  match p with
  | RejectNow e => Throw e
  | ResolveNow hash => Normal hash
  | AfterWaiting hash =>
      if forallb (fun ok => ok) outcomes then Normal hash else Throw DurableWriteFailure
  end.

(** ** [getByHash(hash)] and [getByPath(path)]

    [readCache] and [readPath] are what the awaited backend call yields,
    [None] when it rejects. *)

Definition getByHash (now : Z) (hash : string) (readCache : option Buffer) (s : Cache)
  : completion Buffer * Cache :=
  match get (_caches s) hash with
  | Some (_, stored) =>
      (Normal stored, with_ram (_current s) (set (_caches s) hash (now, stored)) s)
  | None =>
      match _longterm s, readCache with
      | Some _, Some data =>
          match _storeCacheInRAM now hash data s with
          | (Normal _, s1) => (Normal data, s1)
          | (Throw _, s1) => (Throw NotFound, s1)     (* [catch (_) {}] *)
          end
      | _, _ => (Throw NotFound, s)
      end
  end.

Definition getByPath (now : Z) (path : string) (readPath : option string)
    (readCache : option Buffer) (s : Cache) : completion Buffer * Cache :=
  match get (_paths s) path with
  | Some (_, hash) => getByHash now hash readCache s
  | None =>
      match _longterm s, readPath with
      | Some _, Some hash => getByHash now hash readCache (_storePathInRAM path hash s)
      | _, _ => (Throw NotFound, s)
      end
  end.

(** ** Setters and the clear check *)

(** [set totalLimit(bytes)]. *)
Definition set_totalLimit (now bytes : Z) (s : Cache) : completion unit * Cache :=
  _freeSpaceInRAM 0 now (with_totalLimit bytes s).

(** [set fileLimit(bytes)]. *)
Definition set_fileLimit (bytes : Z) (s : Cache) : Cache := with_fileLimit bytes s.

(** [set scoreFunc(func)]. *)
Definition set_scoreFunc (func : Z -> Z -> Z) (s : Cache) : Cache := with_scoreFunc func s.

(** [this._longterm.clear(true)], one turn of the clear-check loop;
    [found] tells whether the backend holds the [clear] marker. *)
Definition clear_check (found : bool) (s : Cache) : Cache :=
  match _longterm s with
  | Some _ =>
      if found then with_path_tier 0 [] (with_ram 0 [] s) else s
  | None => s
  end.

(** ** Runs *)

Inductive Op : Type :=
| Put (now : Z) (data : Buffer) (paths : list string) (wait : bool)
| GetByHash (now : Z) (hash : string) (readCache : option Buffer)
| GetByPath (now : Z) (path : string) (readPath : option string) (readCache : option Buffer)
| SetTotalLimit (now bytes : Z)
| SetFileLimit (bytes : Z)
| SetScoreFunc (func : Z -> Z -> Z)
| ClearCheck (found : bool)
| AfterReadCache (now : Z) (hash : string) (data : Buffer)
| AfterReadPath (now : Z) (path hash : string) (readCache : option Buffer).

(** The state an operation leaves, whether it returned, failed or threw.

    [GetByHash] and [GetByPath] run a lookup in one piece. The last two
    operations are the statements behind an [await] on their own, for a
    lookup whose backend answers after other operations have run:
    [_storeCacheInRAM(hash, data)] behind [await readCache(hash)], and
    [_storePathInRAM(path, hash)] followed by [getByHash(hash)] behind
    [await readPath(path)]. *)
Definition step (s : Cache) (op : Op) : Cache :=
  match op with
  | Put now data paths wait => after_put (put now data paths wait s)
  | GetByHash now hash readCache => snd (getByHash now hash readCache s)
  | GetByPath now path readPath readCache => snd (getByPath now path readPath readCache s)
  | SetTotalLimit now bytes => snd (set_totalLimit now bytes s)
  | SetFileLimit bytes => set_fileLimit bytes s
  | SetScoreFunc func => set_scoreFunc func s
  | ClearCheck found => clear_check found s
  | AfterReadCache now hash data => snd (_storeCacheInRAM now hash data s)
  | AfterReadPath now path hash readCache =>
      snd (getByHash now hash readCache (_storePathInRAM path hash s))
  end.

(** The operations of a run, applied one after the other. *)
Definition run (s : Cache) (ops : list Op) : Cache := fold_left step ops s.

(** Bytes held in RAM: the sum of the lengths of the resident payloads. *)
Definition total_len (caches : list (string * (Z * Buffer))) : Z :=
  fold_right (fun kv acc => len (snd (snd kv)) + acc) 0 caches.

Definition resident_bytes (s : Cache) : Z := total_len (_caches s).

Definition resident (s : Cache) (hash : string) : bool :=
  match get (_caches s) hash with Some _ => true | None => false end.

(** ** The eviction pass in the words of the specification

    "While resident size + payload length > totalLimit, compute the score
    of every resident entry, evict the entry with the numerically largest
    score, decrement resident size." *)

Definition score_of (f : Z -> Z -> Z) (now : Z) (kv : string * (Z * Buffer)) : Z :=
  f (now - fst (snd kv)) (len (snd (snd kv))).

(** The resident entry with the numerically largest score; among entries
    of equal score, the one created last. *)
Fixpoint largest_score (f : Z -> Z -> Z) (now : Z) (caches : list (string * (Z * Buffer)))
  : option (string * (Z * Buffer)) :=
  match caches with
  | [] => None
  | kv :: rest =>
      match largest_score f now rest with
      | None => Some kv
      | Some best => if score_of f now best <? score_of f now kv then Some kv else Some best
      end
  end.

(** [fuel] bounds the number of evictions; the number of resident entries
    is enough. With nothing left to evict the pass cannot go on. *)
Fixpoint evict_largest_first (fuel : nat) (size now : Z) (s : Cache)
  : completion unit * Cache :=
  if _current s + size >? _totalLimit s then
    match largest_score (_scoreFunc s) now (_caches s) with
    | None => (Throw TypeError, s)
    | Some (hash, (_, data)) =>
        match fuel with
        | O => (Throw TypeError, s)
        | S fuel' =>
            evict_largest_first fuel' size now
              (with_ram (_current s - len data) (delete (_caches s) hash) s)
        end
    end
  else (Normal tt, s).

(** ** Deleting paths *)

(** Modelled from the spec: the long-term namespace, which lives outside
    [index.js]: the path keys with the hash each one names, and the payloads
    by hash. *)
Record Durable : Type := {
  durable_paths : list (string * string);
  durable_caches : list (string * Buffer)
}.

(** Modelled from the spec: [removeByPrefix], the key deletion behind
    [deleteByPathStart], missing from [index.js]: "prefix deletion removes
    every key that starts with the given string". *)
Fixpoint removeByPrefix {V : Type} (start : string) (o : list (string * V))
  : list (string * V) :=
  match o with
  | [] => []
  | (k, v) :: o' =>
      if String.prefix start k then removeByPrefix start o'
      else (k, v) :: removeByPrefix start o'
  end.

(** Modelled from the spec: [deleteByPath(path)], missing from [index.js]
    and called by its tests: "remove matching PathEntry(ies) from RAM and,
    if durable configured, from the durable tier. Never removes the
    underlying ContentEntry". *)
Definition deleteByPath (path : string) (s : Cache) (d : Durable) : Cache * Durable :=
  (with_path_tier (_pathIndex s) (delete (_paths s) path) s,
   match _longterm s with
   | Some _ => {| durable_paths := delete (durable_paths d) path;
                  durable_caches := durable_caches d |}
   | None => d
   end).

(** Modelled from the spec: [deleteByPathStart(prefix)], missing from
    [index.js] and called by its tests; same sentence as [deleteByPath],
    with [removeByPrefix] for the keys. *)
Definition deleteByPathStart (start : string) (s : Cache) (d : Durable) : Cache * Durable :=
  (with_path_tier (_pathIndex s) (removeByPrefix start (_paths s)) s,
   match _longterm s with
   | Some _ => {| durable_paths := removeByPrefix start (durable_paths d);
                  durable_caches := durable_caches d |}
   | None => d
   end).

(** ** Invariants of the two tiers *)

(** Hashes are resident once, and [_current] counts the resident bytes. *)
Definition cache_inv (s : Cache) : Prop :=
  NoDup (keys (_caches s)) /\ _current s = resident_bytes s.

Definition indices (paths : list (string * (Z * string))) : list Z :=
  map (fun kv => fst (snd kv)) paths.

(** [a; a+1; ...; a+n-1]. *)
Definition Zseq (a : Z) (n : nat) : list Z := map (fun i => a + Z.of_nat i) (seq 0 n).

(** The resident paths are the last [min _pathIndex _pathLimit] created,
    oldest first. *)
Definition path_inv (s : Cache) : Prop :=
  NoDup (keys (_paths s)) /\
  0 <= _pathIndex s /\
  exists n : nat,
    Z.of_nat n = Z.min (_pathIndex s) (_pathLimit s) /\
    indices (_paths s) = Zseq (_pathIndex s - Z.of_nat n) n.

(** [fold_left ins l []] is [sort l]. *)
Definition ins (acc : list (Z * string)) (x : Z * string) := insert_sorted x acc.

(** The budget: the resident size is at most a total limit that is not
    negative. *)
Definition within_budget (s : Cache) : Prop :=
  0 <= _totalLimit s -> _current s <= _totalLimit s.

(** The invariant of the RAM tier. *)
Definition ram_ok (s : Cache) : Prop := cache_inv s /\ within_budget s.

(** What a pass leaves: only the RAM fields change, the invariant stays,
    a pass that returns has made room, and a pass that throws has emptied
    the RAM tier for a payload no budget could hold. *)
Definition pass_outcome (size : Z) (s : Cache) (r : completion unit) (s' : Cache) : Prop :=
  cache_inv s' /\
  s' = with_ram (_current s') (_caches s') s /\
  (forall k, In k (keys (_caches s')) -> In k (keys (_caches s))) /\
  match r with
  | Normal _ => _current s' + size <= _totalLimit s
  | Throw e => e = TypeError /\ _caches s' = [] /\ _current s' = 0 /\ size > _totalLimit s
  end.

(** The invariant of the path tier, for a positive limit. *)
Definition path_ok (s : Cache) : Prop := 0 < _pathLimit s /\ path_inv s.

(** The [Put]s of one payload, each with its clock, paths and waiting flag. *)
Definition same_payload (data : Buffer) (more : list (Z * list string * bool)) : list Op :=
  map (fun npw => Put (fst (fst npw)) data (snd (fst npw)) (snd npw)) more.

(** Modelled from the spec: what a fulfilled [writePath] or [writeCache]
    leaves in the long-term namespace, whose adapters live outside
    [index.js]. *)
Definition apply_write (d : Durable) (w : Write) : Durable :=
  match w with
  | writePath path cacheHash =>
      {| durable_paths := set (durable_paths d) path cacheHash;
         durable_caches := durable_caches d |}
  | writeCache hash cacheData =>
      {| durable_paths := durable_paths d;
         durable_caches := set (durable_caches d) hash cacheData |}
  end.

(** ** Sample instances *)

Definition ram_only : Options :=
  {| fileLimit := Some 3; totalLimit := Some 5; longterm := None;
     pathLimit := Some 2; debug := None; clearCheckInterval := None |}.

Definition with_folder : Options :=
  {| fileLimit := Some 2; totalLimit := Some 5;
     longterm := Some (FileSystem "tests/temp");
     pathLimit := Some 2; debug := None; clearCheckInterval := None |}.

Definition abc : Buffer := [x61; x62; x63].
Definition de : Buffer := [x64; x65].
Definition fgh : Buffer := [x66; x67; x68].

(** The options and the files of the repository's tests, with fixed bytes
    where the tests draw them at random. *)
Definition tests_ram : Options :=
  {| fileLimit := Some 1000; totalLimit := Some 5000; longterm := None;
     pathLimit := Some 5; debug := Some false; clearCheckInterval := None |}.

Definition tests_temp : Options :=
  {| fileLimit := Some 2; totalLimit := Some 5000;
     longterm := Some (FileSystem "tests/temp");
     pathLimit := Some 5; debug := Some false; clearCheckInterval := None |}.

Definition file (b : byte) (n : nat) : Buffer := repeat b n.
Definition file0500 : Buffer := file x01 500.
Definition file0900 : Buffer := file x02 900.
Definition file1200 : Buffer := file x03 1200.
Definition file0400 : Buffer := file x04 400.
Definition file0300 : Buffer := file x05 300.
Definition fillFiles : list Buffer :=
  [file x10 400; file x11 400; file x12 400; file x13 400;
   file x14 500; file x15 500; file x16 500; file x17 500].

(** ** The long-term adapters of the constructor

    The folder the file-system adapter works in: the files of its [caches]
    and [paths] sub-folders by name, and whether the file [clear] exists. The
    bucket adapter makes the same calls on the keys ["caches/" + hash],
    ["paths/" + path] and ["clear"]. Names are plain file names. *)
Record Folder : Type := {
  caches_dir : list (string * Buffer);
  paths_dir : list (string * Buffer);
  clear_file : bool
}.

(** The value of a hexadecimal digit, in either case. *)
Definition hex_value (c : ascii) : option N :=
  let n := N_of_ascii c in
  if ((48 <=? n) && (n <=? 57))%N then Some (n - 48)%N
  else if ((97 <=? n) && (n <=? 102))%N then Some (n - 87)%N
  else if ((65 <=? n) && (n <=? 70))%N then Some (n - 55)%N
  else None.

Definition byte_of_N (n : N) : byte :=
  match Byte.of_N n with Some b => b | None => x00 end.

(** [Buffer.from(str, 'hex')]: one byte for every two hexadecimal digits,
    up to the first pair that is not one. *)
Fixpoint Buffer_from_hex (str : string) : Buffer :=
  match str with
  | String c1 (String c2 rest) =>
      match hex_value c1, hex_value c2 with
      | Some hi, Some lo => byte_of_N (16 * hi + lo) :: Buffer_from_hex rest
      | _, _ => []
      end
  | _ => []
  end.

(** [buf.toString('hex')]: two lowercase digits for every byte. *)
Fixpoint toString_hex (buf : Buffer) : string :=
  match buf with
  | [] => EmptyString
  | b :: rest =>
      String (SHA256.hex_digit (Byte.to_N b / 16))
        (String (SHA256.hex_digit (Byte.to_N b mod 16)) (toString_hex rest))
  end.

(** [this._longterm.readPath(path)]; [None] when [readFile] rejects. *)
Definition longterm_readPath (folder : Folder) (path : string) : option string :=
  option_map toString_hex (get (paths_dir folder) path).

(** [this._longterm.readCache(hash)]. *)
Definition longterm_readCache (folder : Folder) (hash : string) : option Buffer :=
  get (caches_dir folder) hash.

(** [this._longterm.writePath(path, cacheHash)], fulfilled. *)
Definition longterm_writePath (folder : Folder) (path cacheHash : string) : Folder :=
  {| caches_dir := caches_dir folder;
     paths_dir := set (paths_dir folder) path (Buffer_from_hex cacheHash);
     clear_file := clear_file folder |}.

(** [this._longterm.writeCache(hash, cacheData)], fulfilled. *)
Definition longterm_writeCache (folder : Folder) (hash : string) (cacheData : Buffer) : Folder :=
  {| caches_dir := set (caches_dir folder) hash cacheData;
     paths_dir := paths_dir folder;
     clear_file := clear_file folder |}.

(** A write that [put] started, once fulfilled. *)
Definition fulfil (folder : Folder) (w : Write) : Folder :=
  match w with
  | writePath path cacheHash => longterm_writePath folder path cacheHash
  | writeCache hash cacheData => longterm_writeCache folder hash cacheData
  end.

(** [this._longterm.clear(check)]: with [check] and no [clear] file it
    bails out; otherwise the folder is deleted and made anew, the RAM state
    is reset, and the answer is [true]. *)
Definition longterm_clear (check : bool) (folder : Folder) (s : Cache)
  : bool * Folder * Cache :=
  if check && negb (clear_file folder) then (false, folder, s)
  else (true,
        {| caches_dir := []; paths_dir := []; clear_file := false |},
        with_path_tier 0 [] (with_ram 0 [] s)).

(** A string of lowercase hexadecimal digits. *)
Definition is_lower_hex (c : ascii) : bool :=
  existsb (Ascii.eqb c)
    ["0"; "1"; "2"; "3"; "4"; "5"; "6"; "7"; "8"; "9"; "a"; "b"; "c"; "d"; "e"; "f"]%char.

Fixpoint lower_hex (str : string) : bool :=
  match str with
  | EmptyString => true
  | String c rest => is_lower_hex c && lower_hex rest
  end.

(** A path that is unmapped or mapped to [hash]. *)
Definition points_nowhere_else (hash : string) (s : Cache) (p : string) : Prop :=
  get (_paths s) p = None \/ exists index, get (_paths s) p = Some (index, hash).

(** A write that carries the hash, and for a payload write the bytes, of
    one [put]. *)
Definition write_of (hash : string) (data : Buffer) (w : Write) : Prop :=
  (exists path, w = writePath path hash) \/ w = writeCache hash data.

(** * Properties *)

(** ** The SHA-256 model against known digests *)

Example sha256_empty :
  sha256_hex [] = "e3b0c44298fc1c149afbf4c8996fb92427ae41e4649b934ca495991b7852b855"%string.
Proof. vm_compute. reflexivity. Qed.

Example sha256_abc :
  sha256_hex [x61; x62; x63]
  = "ba7816bf8f01cfea414140de5dae2223b00361a396177a9cb410ff61f20015ad"%string.
Proof. vm_compute. reflexivity. Qed.

Example sha256_two_blocks :
  sha256_hex (repeat x07 70)
  = "fc02d9d3830169949aa99ab8a7d3d9f4aae6dc6ecc23746ff5ee620191250c59"%string.
Proof. vm_compute. reflexivity. Qed.

(** ** Objects as maps *)

Section ObjFacts.
Context {V : Type}.
Implicit Types (o : list (string * V)) (k : string) (v : V).

Lemma get_None_iff o k : get o k = None <-> ~ In k (keys o).
Proof.
  induction o as [|[k' v'] o IH]; simpl.
  - tauto.
  - destruct (String.eqb_spec k k') as [->|Hne].
    + split; [discriminate | intros H; exfalso; apply H; now left].
    + rewrite IH. split; [intros H [E|HI]; [congruence | tauto] | tauto].
Qed.

Lemma get_Some_In o k v : get o k = Some v -> In (k, v) o.
Proof.
  induction o as [|[k' v'] o IH]; simpl; [discriminate|].
  destruct (String.eqb_spec k k') as [->|Hne].
  - intros [= ->]. now left.
  - intros H. right. auto.
Qed.

Lemma get_Some_key o k v : get o k = Some v -> In k (keys o).
Proof. intros H. apply get_Some_In in H. apply (in_map fst) in H. exact H. Qed.

Lemma get_set_eq o k v : get (set o k v) k = Some v.
Proof.
  induction o as [|[k' v'] o IH]; simpl.
  - now rewrite String.eqb_refl.
  - destruct (String.eqb_spec k k') as [->|Hne]; simpl.
    + now rewrite String.eqb_refl.
    + destruct (String.eqb_spec k k'); [congruence | exact IH].
Qed.

Lemma get_set_ne o k k' v : k' <> k -> get (set o k v) k' = get o k'.
Proof.
  intros Hne. induction o as [|[k0 v0] o IH]; simpl.
  - destruct (String.eqb_spec k' k); [congruence | reflexivity].
  - destruct (String.eqb_spec k k0) as [->|Hk]; simpl.
    + destruct (String.eqb_spec k' k0); [congruence | reflexivity].
    + destruct (String.eqb_spec k' k0); [reflexivity | exact IH].
Qed.

Lemma get_delete_eq o k : get (delete o k) k = None.
Proof.
  induction o as [|[k' v'] o IH]; simpl; [reflexivity|].
  destruct (String.eqb_spec k k') as [->|Hne]; simpl; [exact IH|].
  destruct (String.eqb_spec k k'); [congruence | exact IH].
Qed.

Lemma get_delete_ne o k k' : k' <> k -> get (delete o k) k' = get o k'.
Proof.
  intros Hne. induction o as [|[k0 v0] o IH]; simpl; [reflexivity|].
  destruct (String.eqb_spec k k0) as [->|Hk]; simpl.
  - destruct (String.eqb_spec k' k0); [congruence | exact IH].
  - destruct (String.eqb_spec k' k0); [reflexivity | exact IH].
Qed.

(** Assigning to a missing key creates it last. *)
Lemma set_new o k v : get o k = None -> set o k v = o ++ [(k, v)].
Proof.
  induction o as [|[k' v'] o IH]; simpl; [reflexivity|].
  destruct (String.eqb_spec k k'); [discriminate|].
  intros H. now rewrite IH.
Qed.

(** Assigning to a present key keeps every key in place. *)
Lemma keys_set_present o k v v0 : get o k = Some v0 -> keys (set o k v) = keys o.
Proof.
  induction o as [|[k' v'] o IH]; simpl; [discriminate|].
  destruct (String.eqb_spec k k') as [->|Hne]; simpl; [reflexivity|].
  intros H. now rewrite IH.
Qed.

Lemma delete_absent o k : ~ In k (keys o) -> delete o k = o.
Proof.
  induction o as [|[k' v'] o IH]; simpl; [reflexivity|].
  intros H. destruct (String.eqb_spec k k') as [->|Hne]; [tauto|].
  rewrite IH; tauto.
Qed.

(** Deleting the key of one entry of an object without repeated keys
    removes that entry and no other. *)
Lemma delete_middle o1 o2 k v :
  NoDup (keys (o1 ++ (k, v) :: o2)) -> delete (o1 ++ (k, v) :: o2) k = o1 ++ o2.
Proof.
  induction o1 as [|[k' v'] o1 IH]; simpl; intros H.
  - rewrite String.eqb_refl. apply delete_absent. now inversion H.
  - inversion H as [|? ? Hnin Hnd]; subst.
    destruct (String.eqb_spec k k') as [->|Hne].
    + exfalso. apply Hnin. unfold keys. rewrite map_app. apply in_or_app.
      right. now left.
    + f_equal. now apply IH.
Qed.

Lemma keys_delete_incl o k k' : In k' (keys (delete o k)) -> In k' (keys o).
Proof.
  induction o as [|[k0 v0] o IH]; simpl; [tauto|].
  destruct (String.eqb_spec k k0); simpl; tauto.
Qed.

Lemma NoDup_keys_delete o k : NoDup (keys o) -> NoDup (keys (delete o k)).
Proof.
  induction o as [|[k0 v0] o IH]; simpl; intros H; [constructor|].
  inversion H; subst.
  destruct (String.eqb_spec k k0); simpl; [auto|].
  constructor; [|auto]. intros HI. apply keys_delete_incl in HI. tauto.
Qed.

Lemma NoDup_keys_set o k v : NoDup (keys o) -> NoDup (keys (set o k v)).
Proof.
  intros H. destruct (get o k) as [v0|] eqn:E.
  - now rewrite (keys_set_present _ _ _ _ E).
  - rewrite (set_new _ _ _ E). unfold keys. rewrite map_app. simpl.
    apply get_None_iff in E.
    rewrite <- (rev_involutive (map fst o ++ [k])). apply NoDup_rev.
    rewrite rev_app_distr. simpl.
    constructor; [now rewrite <- in_rev | now apply NoDup_rev].
Qed.
End ObjFacts.

Lemma In_get {V : Type} (o : list (string * V)) k v :
  NoDup (keys o) -> In (k, v) o -> get o k = Some v.
Proof.
  induction o as [|[k' v'] o IH]; simpl; [tauto|].
  intros Hnd [E|HI].
  - inversion E; subst. now rewrite String.eqb_refl.
  - inversion Hnd; subst.
    destruct (String.eqb_spec k k') as [->|Hne]; [|auto].
    exfalso. apply (in_map fst) in HI. tauto.
Qed.

(** ** Resident bytes *)

Lemma len_nonneg data : 0 <= len data.
Proof. unfold len. lia. Qed.

Lemma total_len_nonneg caches : 0 <= total_len caches.
Proof.
  induction caches as [|[k [t d]] o IH]; simpl; [lia|].
  pose proof (len_nonneg d). lia.
Qed.

Lemma total_len_app o1 o2 : total_len (o1 ++ o2) = total_len o1 + total_len o2.
Proof. induction o1 as [|kv o1 IH]; simpl; lia. Qed.

Lemma total_len_refresh o k t t' d :
  get o k = Some (t, d) -> total_len (set o k (t', d)) = total_len o.
Proof.
  induction o as [|[k' [t0 d0]] o IH]; simpl; [discriminate|].
  destruct (String.eqb_spec k k') as [->|Hne]; simpl.
  - now intros [= -> ->].
  - intros H. now rewrite IH.
Qed.

Lemma total_len_delete o k t d :
  NoDup (keys o) -> get o k = Some (t, d) -> total_len (delete o k) = total_len o - len d.
Proof.
  induction o as [|[k' [t0 d0]] o IH]; simpl; [discriminate|].
  intros Hnd. inversion Hnd; subst.
  destruct (String.eqb_spec k k') as [->|Hne]; simpl.
  - intros [= -> ->]. rewrite delete_absent by assumption. lia.
  - intros H. rewrite IH by assumption. lia.
Qed.

(** ** The sort and the entry it puts last *)

Lemma sort_app l1 l2 : sort (l1 ++ l2) = fold_left ins l2 (sort l1).
Proof. unfold sort. apply fold_left_app. Qed.

Lemma insert_sorted_last x l :
  Forall (fun y => fst y <= fst x) l -> insert_sorted x l = l ++ [x].
Proof.
  induction 1 as [|y l Hy _ IH]; simpl; [reflexivity|].
  destruct (Z.ltb_spec (fst x) (fst y)); [lia|]. now rewrite IH.
Qed.

Lemma insert_sorted_before y x l :
  fst y < fst x -> insert_sorted y (l ++ [x]) = insert_sorted y l ++ [x].
Proof.
  intros Hlt. induction l as [|a l IH]; simpl.
  - destruct (Z.ltb_spec (fst y) (fst x)); [reflexivity | lia].
  - destruct (fst y <? fst a); [reflexivity|]. now rewrite IH.
Qed.

Lemma fold_ins_before x l acc :
  Forall (fun y => fst y < fst x) l ->
  fold_left ins l (acc ++ [x]) = fold_left ins l acc ++ [x].
Proof.
  intros H. revert acc. induction H as [|y l Hy _ IH]; intros acc; simpl; [reflexivity|].
  unfold ins at 2. rewrite insert_sorted_before by assumption. apply IH.
Qed.

Lemma Forall_insert_sorted (P : Z * string -> Prop) x l :
  P x -> Forall P l -> Forall P (insert_sorted x l).
Proof.
  intros Hx. induction 1 as [|y l Hy Hl IH]; simpl.
  - constructor; [assumption | constructor].
  - destruct (fst x <? fst y); repeat constructor; assumption.
Qed.

Lemma Forall_sort (P : Z * string -> Prop) l : Forall P l -> Forall P (sort l).
Proof.
  unfold sort. generalize (@Forall_nil _ P). generalize (@nil (Z * string)).
  induction l as [|x l IH]; intros acc Hacc Hl; simpl; [assumption|].
  inversion Hl; subst. apply IH; [|assumption].
  now apply Forall_insert_sorted.
Qed.

(** With every earlier entry scoring at most [x] and every later entry
    scoring less, the stable ascending sort puts [x] last. *)
Lemma sort_puts_last l1 x l2 :
  Forall (fun y => fst y <= fst x) l1 ->
  Forall (fun y => fst y < fst x) l2 ->
  sort (l1 ++ x :: l2) = sort (l1 ++ l2) ++ [x].
Proof.
  intros H1 H2. rewrite !sort_app. simpl. unfold ins at 2.
  rewrite insert_sorted_last by now apply Forall_sort.
  now apply fold_ins_before.
Qed.

Lemma largest_score_None f now caches :
  largest_score f now caches = None -> caches = [].
Proof.
  destruct caches as [|kv rest]; simpl; [reflexivity|].
  destruct (largest_score f now rest) as [best|]; [|discriminate].
  destruct (score_of f now best <? score_of f now kv); discriminate.
Qed.

(** [largest_score] returns an entry no other entry outscores, and that
    every later entry scores strictly below. *)
Lemma largest_score_split f now caches kv :
  largest_score f now caches = Some kv ->
  exists o1 o2,
    caches = o1 ++ kv :: o2 /\
    Forall (fun e => score_of f now e <= score_of f now kv) o1 /\
    Forall (fun e => score_of f now e < score_of f now kv) o2.
Proof.
  revert kv. induction caches as [|kv0 rest IH]; intros kv; simpl; [discriminate|].
  destruct (largest_score f now rest) as [best|] eqn:E.
  - destruct (IH best eq_refl) as (o1 & o2 & -> & H1 & H2).
    destruct (Z.ltb_spec (score_of f now best) (score_of f now kv0)) as [Hlt|Hge];
      intros [= <-].
    + exists [], (o1 ++ best :: o2). repeat split; [constructor|].
      apply Forall_app. split; [|constructor; [assumption|]].
      * eapply Forall_impl; [|exact H1]. simpl. intros; lia.
      * eapply Forall_impl; [|exact H2]. simpl. intros; lia.
    + exists (kv0 :: o1), o2. repeat split; [|assumption].
      constructor; assumption.
  - apply largest_score_None in E. subst rest. intros [= <-].
    exists [], []. repeat split; constructor.
Qed.

Lemma scored_app f now o1 o2 :
  scored f now (o1 ++ o2) = scored f now o1 ++ scored f now o2.
Proof. apply map_app. Qed.

Lemma Forall_scored (R : Z -> Prop) f now o :
  Forall (fun e => R (score_of f now e)) o -> Forall (fun y => R (fst y)) (scored f now o).
Proof. unfold scored. intros H. apply Forall_map. exact H. Qed.

(** The array the loop pops from, last element first, starts with the
    entry [largest_score] names and goes on with the sorted rest. *)
Lemma sorted_pop f now caches hash t data :
  largest_score f now caches = Some (hash, (t, data)) ->
  exists o1 o2,
    caches = o1 ++ (hash, (t, data)) :: o2 /\
    rev (sort (scored f now caches))
    = (score_of f now (hash, (t, data)), hash) :: rev (sort (scored f now (o1 ++ o2))).
Proof.
  intros H. destruct (largest_score_split _ _ _ _ H) as (o1 & o2 & -> & H1 & H2).
  exists o1, o2. split; [reflexivity|].
  rewrite !scored_app. simpl.
  rewrite sort_puts_last.
  - rewrite rev_app_distr. reflexivity.
  - apply (Forall_scored (fun z => z <= score_of f now (hash, (t, data)))). exact H1.
  - apply (Forall_scored (fun z => z < score_of f now (hash, (t, data)))). exact H2.
Qed.

(** ** The eviction loop *)

Lemma free_loop_fits size stack s :
  _current s + size <= _totalLimit s -> free_loop size stack s = (Normal tt, s).
Proof.
  intros H. destruct stack; simpl;
    destruct (Z.gtb_spec (_current s + size) (_totalLimit s)); (lia || reflexivity).
Qed.

Lemma free_loop_pop size score hash stack s t data :
  _totalLimit s < _current s + size ->
  get (_caches s) hash = Some (t, data) ->
  free_loop size ((score, hash) :: stack) s
  = free_loop size stack (with_ram (_current s - len data) (delete (_caches s) hash) s).
Proof.
  intros H G. simpl.
  destruct (Z.gtb_spec (_current s + size) (_totalLimit s)); [|lia].
  now rewrite G.
Qed.

Lemma evict_fits fuel size now s :
  _current s + size <= _totalLimit s -> evict_largest_first fuel size now s = (Normal tt, s).
Proof.
  intros H. destruct fuel; simpl;
    destruct (Z.gtb_spec (_current s + size) (_totalLimit s)); (lia || reflexivity).
Qed.

(** The loop of the source and the pass of the specification agree, on the
    completion and on the state, whatever the scoring function. *)
Lemma free_loop_refines fuel size now s :
  NoDup (keys (_caches s)) ->
  (List.length (_caches s) <= fuel)%nat ->
  free_loop size (rev (sort (scored (_scoreFunc s) now (_caches s)))) s
  = evict_largest_first fuel size now s.
Proof.
  revert s. induction fuel as [|fuel IH]; intros s Hnd Hlen.
  - destruct (_caches s) eqn:E; [|simpl in Hlen; lia].
    simpl. rewrite E. reflexivity.
  - destruct (Z.gtb_spec (_current s + size) (_totalLimit s)) as [Hgt|Hle].
    2:{ rewrite free_loop_fits, evict_fits by assumption. reflexivity. }
    simpl evict_largest_first.
    destruct (Z.gtb_spec (_current s + size) (_totalLimit s)); [|lia].
    destruct (largest_score (_scoreFunc s) now (_caches s)) as [[hash [t data]]|] eqn:E.
    + destruct (sorted_pop _ _ _ _ _ _ E) as (o1 & o2 & Hc & Hs).
      rewrite Hs.
      assert (G : get (_caches s) hash = Some (t, data)).
      { apply In_get; [assumption|]. rewrite Hc. apply in_or_app. right. now left. }
      rewrite (free_loop_pop _ _ _ _ _ _ _ Hgt G).
      assert (D : delete (_caches s) hash = o1 ++ o2).
      { rewrite Hc. apply delete_middle. now rewrite <- Hc. }
      rewrite <- D.
      apply (IH (with_ram (_current s - len data) (delete (_caches s) hash) s)); simpl.
      * now apply NoDup_keys_delete.
      * rewrite D. rewrite Hc in Hlen. rewrite length_app in *. simpl in Hlen. lia.
    + apply largest_score_None in E. rewrite E. simpl.
      destruct (Z.gtb_spec (_current s + size) (_totalLimit s)); [reflexivity | lia].
Qed.

Lemma freeSpace_refines size now s :
  NoDup (keys (_caches s)) ->
  _freeSpaceInRAM size now s = evict_largest_first (List.length (_caches s)) size now s.
Proof.
  intros Hnd. unfold _freeSpaceInRAM.
  destruct (Z.gtb_spec (_current s + size) (_totalLimit s)) as [Hgt|Hle].
  - now apply free_loop_refines.
  - now rewrite evict_fits.
Qed.

Lemma with_ram_same s : s = with_ram (_current s) (_caches s) s.
Proof. now destruct s. Qed.

Lemma pass_outcome_fits size s :
  cache_inv s -> _current s + size <= _totalLimit s -> pass_outcome size s (Normal tt) s.
Proof.
  intros Hinv Hle. repeat split; try apply Hinv; auto using with_ram_same.
Qed.

Lemma pass_outcome_empty size s :
  cache_inv s -> _caches s = [] -> _totalLimit s < _current s + size ->
  pass_outcome size s (Throw TypeError) s.
Proof.
  intros Hinv E Hgt.
  assert (H0 : _current s = 0).
  { destruct Hinv as [_ ->]. unfold resident_bytes. now rewrite E. }
  repeat split; try apply Hinv; auto using with_ram_same. lia.
Qed.

Lemma evict_outcome fuel size now s :
  cache_inv s ->
  (List.length (_caches s) <= fuel)%nat ->
  forall r s', evict_largest_first fuel size now s = (r, s') -> pass_outcome size s r s'.
Proof.
  revert s. induction fuel as [|fuel IH]; intros s Hinv Hlen r s'.
  - destruct (_caches s) eqn:E; [|simpl in Hlen; lia].
    simpl. rewrite E. simpl.
    destruct (Z.gtb_spec (_current s + size) (_totalLimit s)); intros [= <- <-].
    + now apply pass_outcome_empty.
    + now apply pass_outcome_fits.
  - simpl.
    destruct (Z.gtb_spec (_current s + size) (_totalLimit s)) as [Hgt|Hle].
    2:{ intros [= <- <-]. now apply pass_outcome_fits. }
    destruct (largest_score (_scoreFunc s) now (_caches s)) as [[hash [t data]]|] eqn:E.
    + destruct (largest_score_split _ _ _ _ E) as (o1 & o2 & Hc & _).
      destruct Hinv as [Hnd Hcur].
      assert (G : get (_caches s) hash = Some (t, data)).
      { apply In_get; [assumption|]. rewrite Hc. apply in_or_app. right. now left. }
      intros Hrun. apply IH in Hrun.
      * destruct Hrun as (Hinv' & Hfr & Hsub & Hr). simpl in *.
        repeat split; try apply Hinv'.
        -- rewrite Hfr at 1. reflexivity.
        -- intros k Hk. apply Hsub in Hk. now apply keys_delete_incl in Hk.
        -- exact Hr.
      * split; simpl; [now apply NoDup_keys_delete|].
        unfold resident_bytes. simpl.
        rewrite (total_len_delete _ _ _ _ Hnd G). rewrite Hcur. reflexivity.
      * simpl. rewrite Hc in Hlen |- *.
        rewrite delete_middle by now rewrite <- Hc.
        rewrite length_app in *. simpl in Hlen. lia.
    + apply largest_score_None in E. intros [= <- <-].
      now apply pass_outcome_empty.
Qed.

Lemma freeSpace_outcome size now s :
  cache_inv s ->
  forall r s', _freeSpaceInRAM size now s = (r, s') -> pass_outcome size s r s'.
Proof.
  intros Hinv r s'. rewrite freeSpace_refines by apply Hinv.
  now apply evict_outcome.
Qed.

(** ** Storing a payload in RAM *)

Lemma store_hit now hash data s t stored :
  get (_caches s) hash = Some (t, stored) ->
  _storeCacheInRAM now hash data s
  = (Normal true, with_ram (_current s) (set (_caches s) hash (now, stored)) s).
Proof. intros G. unfold _storeCacheInRAM. now rewrite G. Qed.

Lemma store_too_large now hash data s :
  get (_caches s) hash = None -> _fileLimit s < len data ->
  _storeCacheInRAM now hash data s = (Normal false, s).
Proof.
  intros G H. unfold _storeCacheInRAM. rewrite G.
  destruct (Z.gtb_spec (len data) (_fileLimit s)); [reflexivity | lia].
Qed.

(** The loop only removes entries, whatever state it starts from. *)
Lemma free_loop_keys size stack :
  forall s r s', free_loop size stack s = (r, s') ->
  forall k, In k (keys (_caches s')) -> In k (keys (_caches s)).
Proof.
  induction stack as [|[sc h] stack IH]; intros s r s' E k Hk; simpl in E.
  - destruct (_current s + size >? _totalLimit s); inversion E; now subst.
  - destruct (_current s + size >? _totalLimit s); [|inversion E; now subst].
    destruct (get (_caches s) h) as [[t d]|]; [|inversion E; now subst].
    apply IH with (k := k) in E; [|assumption]. simpl in E.
    now apply keys_delete_incl in E.
Qed.

Lemma freeSpace_keys size now s r s' :
  _freeSpaceInRAM size now s = (r, s') ->
  forall k, In k (keys (_caches s')) -> In k (keys (_caches s)).
Proof.
  unfold _freeSpaceInRAM.
  destruct (_current s + size >? _totalLimit s).
  - apply free_loop_keys.
  - intros [= <- <-]. auto.
Qed.

Lemma store_miss now hash data s :
  get (_caches s) hash = None -> len data <= _fileLimit s ->
  _storeCacheInRAM now hash data s
  = match _freeSpaceInRAM (len data) now s with
    | (Throw e, s1) => (Throw e, s1)
    | (Normal _, s1) =>
        (Normal true,
         with_ram (_current s1 + len data) (_caches s1 ++ [(hash, (now, data))]) s1)
    end.
Proof.
  intros G H. unfold _storeCacheInRAM. rewrite G.
  destruct (Z.gtb_spec (len data) (_fileLimit s)); [lia|].
  destruct (_freeSpaceInRAM (len data) now s) as [[u|e] s1] eqn:E; [|reflexivity].
  rewrite set_new; [reflexivity|].
  apply get_None_iff. intros HI. apply (freeSpace_keys _ _ _ _ _ E) in HI.
  apply get_None_iff in G. tauto.
Qed.

Lemma cache_inv_refresh s hash now t stored :
  cache_inv s -> get (_caches s) hash = Some (t, stored) ->
  cache_inv (with_ram (_current s) (set (_caches s) hash (now, stored)) s).
Proof.
  intros [Hnd Hcur] G. split; simpl.
  - now apply NoDup_keys_set.
  - unfold resident_bytes. simpl. now rewrite (total_len_refresh _ _ _ _ _ G).
Qed.

Lemma cache_inv_add s1 hash now data :
  cache_inv s1 -> get (_caches s1) hash = None ->
  cache_inv (with_ram (_current s1 + len data) (_caches s1 ++ [(hash, (now, data))]) s1).
Proof.
  intros [Hnd Hcur] G. split; simpl.
  - rewrite <- (set_new _ _ (now, data) G). now apply NoDup_keys_set.
  - unfold resident_bytes. simpl. rewrite total_len_app. simpl.
    rewrite Hcur. unfold resident_bytes. lia.
Qed.

(** The three ways [_storeCacheInRAM] ends on a state that satisfies the
    invariant. *)
Lemma store_outcome now hash data s :
  cache_inv s ->
  forall r s', _storeCacheInRAM now hash data s = (r, s') ->
  cache_inv s' /\
  (within_budget s -> within_budget s') /\
  s' = with_ram (_current s') (_caches s') s /\
  match r with
  | Normal true =>
      (exists t stored, get (_caches s) hash = Some (t, stored) /\
                        get (_caches s') hash = Some (now, stored) /\
                        _current s' = _current s /\
                        keys (_caches s') = keys (_caches s)) \/
      (get (_caches s) hash = None /\ len data <= _fileLimit s /\
       get (_caches s') hash = Some (now, data))
  | Normal false =>
      s' = s /\ get (_caches s) hash = None /\ _fileLimit s < len data
  | Throw e =>
      e = TypeError /\ get (_caches s) hash = None /\ len data <= _fileLimit s /\
      _totalLimit s < len data /\ _caches s' = [] /\ _current s' = 0
  end.
Proof.
  intros Hinv r s'.
  destruct (get (_caches s) hash) as [[t stored]|] eqn:G.
  - rewrite (store_hit _ _ _ _ _ _ G). intros [= <- <-].
    split; [now apply cache_inv_refresh with (t := t)|].
    split; [exact (fun Hb => Hb)|].
    split; [reflexivity|]. left. exists t, stored. simpl.
    repeat split; auto using get_set_eq. now apply keys_set_present with (v0 := (t, stored)).
  - destruct (Z.ltb_spec (_fileLimit s) (len data)) as [Hbig|Hsmall].
    + rewrite store_too_large by assumption. intros [= <- <-].
      repeat split; auto using with_ram_same; apply Hinv.
    + rewrite store_miss by assumption.
      destruct (_freeSpaceInRAM (len data) now s) as [[u|e] s1] eqn:E;
        apply (freeSpace_outcome _ _ _ Hinv) in E;
        destruct E as (Hinv1 & Hfr & Hsub & Hr); intros [= <- <-].
      * assert (G1 : get (_caches s1) hash = None).
        { apply get_None_iff. intros HI. apply Hsub in HI.
          apply get_None_iff in G. tauto. }
        split; [now apply cache_inv_add|].
        split; [intros _; unfold within_budget; rewrite Hfr; simpl; lia|].
        split; [rewrite Hfr at 3; reflexivity|]. right. simpl.
        repeat split; try assumption.
        rewrite <- (set_new _ _ (now, data) G1). apply get_set_eq.
      * destruct Hr as (-> & Hc & H0 & Hgt).
        split; [exact Hinv1|].
        split; [intros _; unfold within_budget; rewrite H0, Hfr; simpl; tauto|].
        split; [exact Hfr|]. repeat split; auto; lia.
Qed.

(** ** The two tiers do not touch each other *)

Lemma with_path_tier_same s : s = with_path_tier (_pathIndex s) (_paths s) s.
Proof. now destruct s. Qed.

Lemma storePath_frame path hash s :
  _storePathInRAM path hash s
  = with_path_tier (_pathIndex (_storePathInRAM path hash s))
                   (_paths (_storePathInRAM path hash s)) s.
Proof.
  unfold _storePathInRAM.
  destruct (get (_paths s) path) as [[index old]|]; [reflexivity|].
  destruct (_pathIndex s + 1 >? _pathLimit s); [|reflexivity].
  destruct (find_index _ _); reflexivity.
Qed.

Lemma put_paths_frame hash paths :
  forall s w, exists pathIndex paths',
    fst (fold_left (put_path hash) paths (s, w)) = with_path_tier pathIndex paths' s.
Proof.
  induction paths as [|path paths IH]; intros s w; cbn [fold_left].
  - exists (_pathIndex s), (_paths s). apply with_path_tier_same.
  - unfold put_path at 2.
    destruct (match get (_paths s) path with
              | Some (_, h) => negb (h =? hash)%string
              | None => true
              end).
    + destruct (IH (_storePathInRAM path hash s)
                   (match _longterm s with
                    | Some _ => w ++ [writePath path hash]
                    | None => w
                    end)) as (pi & ps & ->).
      exists pi, ps. rewrite storePath_frame. reflexivity.
    + apply IH.
Qed.

Lemma ram_ok_path_tier pathIndex paths s :
  ram_ok (with_path_tier pathIndex paths s) <-> ram_ok s.
Proof. unfold ram_ok, cache_inv, within_budget, resident_bytes. simpl. tauto. Qed.

Lemma ram_ok_storePath path hash s : ram_ok s -> ram_ok (_storePathInRAM path hash s).
Proof. intros H. rewrite storePath_frame. now apply ram_ok_path_tier. Qed.

Lemma ram_ok_put_paths hash paths s w :
  ram_ok s -> ram_ok (fst (fold_left (put_path hash) paths (s, w))).
Proof.
  intros H. destruct (put_paths_frame hash paths s w) as (pi & ps & ->).
  now apply ram_ok_path_tier.
Qed.

(** ** Every operation keeps the RAM tier within its budget *)

Lemma ram_ok_new options : ram_ok (new_Cache options).
Proof.
  split; [split|]; simpl.
  - constructor.
  - reflexivity.
  - unfold within_budget. simpl. tauto.
Qed.

Lemma ram_ok_getByHash now hash readCache s :
  ram_ok s -> ram_ok (snd (getByHash now hash readCache s)).
Proof.
  intros H. unfold getByHash.
  destruct (get (_caches s) hash) as [[t stored]|] eqn:G; simpl.
  - split; [apply cache_inv_refresh with (t := t); [apply H | exact G] | apply H].
  - destruct (_longterm s); [|exact H].
    destruct readCache as [data|]; [|exact H].
    destruct (_storeCacheInRAM now hash data s) as [[inRAM|e] s1] eqn:E;
      apply (store_outcome _ _ _ _ (proj1 H)) in E;
      (split; [apply E | apply E, H]).
Qed.

Lemma ram_ok_put now data paths wait s :
  ram_ok s -> ram_ok (after_put (put now data paths wait s)).
Proof.
  intros H. unfold put.
  destruct (match _longterm s with Some _ => false | None => true end
            && (len data >? _fileLimit s)); [exact H|].
  pose proof (ram_ok_put_paths (sha256_hex data) paths s [] H) as H1.
  destruct (fold_left (put_path (sha256_hex data)) paths (s, [])) as [s1 w1].
  simpl in H1.
  destruct (_storeCacheInRAM now (sha256_hex data) data s1) as [[inRAM|e] s2] eqn:E;
    apply (store_outcome _ _ _ _ (proj1 H1)) in E;
    (split; [apply E | apply E, H1]).
Qed.

Lemma ram_ok_set_totalLimit now bytes s :
  cache_inv s -> ram_ok (snd (set_totalLimit now bytes s)).
Proof.
  intros H. unfold set_totalLimit.
  destruct (_freeSpaceInRAM 0 now (with_totalLimit bytes s)) as [r s1] eqn:E.
  apply freeSpace_outcome in E; [|exact H].
  destruct E as (Hinv & Hfr & _ & Hr). simpl.
  split; [exact Hinv|]. unfold within_budget. rewrite Hfr. simpl.
  destruct r as [u|e]; simpl in Hr; lia.
Qed.

Lemma ram_ok_clear_check found s : ram_ok s -> ram_ok (clear_check found s).
Proof.
  intros H. unfold clear_check.
  destruct (_longterm s); [|exact H]. destruct found; [|exact H].
  split; [split|]; simpl; [constructor | reflexivity |].
  unfold within_budget. simpl. tauto.
Qed.

Lemma ram_ok_step s op : ram_ok s -> ram_ok (step s op).
Proof.
  intros H. destruct op; simpl.
  - now apply ram_ok_put.
  - now apply ram_ok_getByHash.
  - unfold getByPath.
    destruct (get (_paths s) path) as [[index hash]|].
    + now apply ram_ok_getByHash.
    + destruct (_longterm s); [|exact H].
      destruct readPath as [hash|]; [|exact H].
      apply ram_ok_getByHash. now apply ram_ok_storePath.
  - apply ram_ok_set_totalLimit, H.
  - exact H.
  - exact H.
  - now apply ram_ok_clear_check.
  - destruct (_storeCacheInRAM now hash data s) as [r s1] eqn:E.
    apply (store_outcome _ _ _ _ (proj1 H)) in E.
    split; [apply E | apply E, H].
  - apply ram_ok_getByHash. now apply ram_ok_storePath.
Qed.

Lemma ram_ok_run ops : forall s, ram_ok s -> ram_ok (run s ops).
Proof.
  induction ops as [|op ops IH]; intros s H; simpl; [exact H|].
  apply IH. now apply ram_ok_step.
Qed.

(** ** The window of paths *)

Lemma length_Zseq a n : List.length (Zseq a n) = n.
Proof. unfold Zseq. now rewrite length_map, length_seq. Qed.

Lemma Zseq_cons a n : Zseq a (S n) = a :: Zseq (a + 1) n.
Proof.
  unfold Zseq. simpl. f_equal; [lia|].
  rewrite <- seq_shift, map_map. apply map_ext. intros i. lia.
Qed.

Lemma Zseq_snoc a n b : b = a + Z.of_nat n -> Zseq a n ++ [b] = Zseq a (S n).
Proof.
  intros ->. unfold Zseq. rewrite seq_S, map_app. reflexivity.
Qed.

Lemma Zseq_bounds a n : Forall (fun i => a <= i < a + Z.of_nat n) (Zseq a n).
Proof.
  unfold Zseq. apply Forall_map. apply Forall_forall. intros i Hi.
  apply in_seq in Hi. lia.
Qed.

Lemma indices_app o1 o2 : indices (o1 ++ o2) = indices o1 ++ indices o2.
Proof. apply map_app. Qed.

Lemma length_indices o : List.length (indices o) = List.length o.
Proof. apply length_map. Qed.

(** Repointing a path keeps its insertion index, and every other one. *)
Lemma indices_set_present o path index old hash :
  get o path = Some (index, old) -> indices (set o path (index, hash)) = indices o.
Proof.
  induction o as [|[k [i h]] o IH]; simpl; [discriminate|].
  destruct (String.eqb_spec path k) as [->|Hne]; simpl.
  - now intros [= -> ->].
  - intros H. now rewrite IH.
Qed.

Lemma path_inv_length s :
  path_inv s -> Z.of_nat (List.length (_paths s)) = Z.min (_pathIndex s) (_pathLimit s).
Proof.
  intros (_ & _ & n & Hn & Hi). rewrite <- Hn.
  rewrite <- length_indices, Hi, length_Zseq. reflexivity.
Qed.

Lemma storePath_present path hash s index old :
  get (_paths s) path = Some (index, old) ->
  _storePathInRAM path hash s
  = with_path_tier (_pathIndex s) (set (_paths s) path (index, hash)) s.
Proof. intros G. unfold _storePathInRAM. now rewrite G. Qed.

(** A new path while the window has room: appended, nothing removed. *)
Lemma storePath_new_room path hash s :
  path_inv s -> get (_paths s) path = None ->
  Z.of_nat (List.length (_paths s)) < _pathLimit s ->
  _storePathInRAM path hash s
  = with_path_tier (_pathIndex s + 1) (_paths s ++ [(path, (_pathIndex s, hash))]) s.
Proof.
  intros Hinv G Hlen. rewrite (path_inv_length _ Hinv) in Hlen.
  unfold _storePathInRAM. rewrite G.
  destruct (Z.gtb_spec (_pathIndex s + 1) (_pathLimit s)); [lia|].
  now rewrite set_new.
Qed.

(** A new path into a full window: the oldest entry, the one that carries
    index [counter - limit - 1], leaves. *)
Lemma storePath_new_full path hash s :
  path_inv s -> 0 < _pathLimit s -> get (_paths s) path = None ->
  _pathLimit s <= Z.of_nat (List.length (_paths s)) ->
  exists victim vhash rest,
    _paths s = (victim, (_pathIndex s + 1 - _pathLimit s - 1, vhash)) :: rest /\
    indices rest = Zseq (_pathIndex s + 1 - _pathLimit s) (List.length rest) /\
    Z.of_nat (List.length (_paths s)) = _pathLimit s /\
    _storePathInRAM path hash s
    = with_path_tier (_pathIndex s + 1) (rest ++ [(path, (_pathIndex s, hash))]) s.
Proof.
  intros Hinv HL G Hlen. pose proof (path_inv_length _ Hinv) as Hlen'.
  destruct Hinv as (Hnd & H0 & n & Hn & Hi).
  assert (Hn' : n = List.length (_paths s)).
  { rewrite <- length_indices, Hi, length_Zseq. reflexivity. }
  destruct (_paths s) as [|[victim [vi vhash]] rest] eqn:E; [simpl in Hlen; lia|].
  subst n.
  change (List.length ((victim, (vi, vhash)) :: rest)) with (S (List.length rest)) in *.
  rewrite Zseq_cons in Hi.
  change (indices ((victim, (vi, vhash)) :: rest)) with (vi :: indices rest) in Hi.
  pose proof (f_equal (@hd Z 0) Hi) as Hvi. pose proof (f_equal (@tl Z) Hi) as Hrest.
  cbn [hd tl] in Hvi, Hrest. clear Hi.
  assert (Hfull : Z.of_nat (S (List.length rest)) = _pathLimit s) by lia.
  assert (Hvi' : vi = _pathIndex s + 1 - _pathLimit s - 1) by lia.
  clear Hvi. exists victim, vhash, rest. subst vi.
  split; [reflexivity|].
  split; [rewrite Hrest; f_equal; lia|].
  split; [exact Hfull|].
  unfold _storePathInRAM. rewrite E, G.
  destruct (Z.gtb_spec (_pathIndex s + 1) (_pathLimit s)); [|lia].
  rewrite set_new by exact G.
  unfold find_index. cbn [app find snd fst option_map].
  rewrite Z.eqb_refl. cbn [option_map fst delete].
  rewrite String.eqb_refl.
  rewrite delete_absent; [reflexivity|].
  unfold keys. rewrite map_app. cbn [map fst]. intros HI. apply in_app_or in HI.
  cbn [keys map fst] in Hnd. inversion Hnd; subst.
  destruct HI as [HI|[HI|[]]]; [tauto|].
  subst path. cbn [get] in G. rewrite String.eqb_refl in G. discriminate.
Qed.

Lemma path_ok_storePath path hash s : path_ok s -> path_ok (_storePathInRAM path hash s).
Proof.
  intros [HL Hinv].
  destruct (get (_paths s) path) as [[index old]|] eqn:G.
  - rewrite (storePath_present _ _ _ _ _ G).
    destruct Hinv as (Hnd & H0 & n & Hn & Hi).
    split; [exact HL|]. split; [|split; [exact H0|exists n; split; [exact Hn|]]]; simpl.
    + now apply NoDup_keys_set.
    + now rewrite (indices_set_present _ _ _ _ _ G).
  - destruct (Z.lt_ge_cases (Z.of_nat (List.length (_paths s))) (_pathLimit s)) as [Hroom|Hfull].
    + rewrite storePath_new_room by assumption.
      pose proof (path_inv_length _ Hinv) as Hlen.
      destruct Hinv as (Hnd & H0 & n & Hn & Hi).
      split; [exact HL|]. split; [|split]; simpl.
      * rewrite <- (set_new _ _ (_pathIndex s, hash) G). now apply NoDup_keys_set.
      * lia.
      * exists (S n). split; [lia|].
        rewrite indices_app, Hi. simpl.
        rewrite Zseq_snoc by lia. f_equal. lia.
    + destruct (storePath_new_full path hash s Hinv HL G Hfull)
        as (victim & vhash & rest & E & Hrest & Hlen & ->).
      pose proof (path_inv_length _ Hinv) as Hmin.
      destruct Hinv as (Hnd & H0 & _).
      split; [exact HL|]. split; [|split]; cbn [with_path_tier _paths _pathIndex _pathLimit].
      * rewrite E in Hnd, G. cbn [keys map fst get] in Hnd, G. inversion Hnd; subst.
        destruct (String.eqb_spec path victim); [discriminate|].
        rewrite <- (set_new _ _ (_pathIndex s, hash) G). now apply NoDup_keys_set.
      * lia.
      * exists (S (List.length rest)). rewrite E in Hlen, Hmin.
        change (List.length ((victim, (_pathIndex s + 1 - _pathLimit s - 1, vhash)) :: rest))
          with (S (List.length rest)) in Hlen, Hmin.
        split; [lia|].
        rewrite indices_app, Hrest. cbn [indices map fst snd].
        rewrite Zseq_snoc by lia. f_equal. lia.
Qed.

Lemma free_loop_frame size stack :
  forall s, exists current caches, snd (free_loop size stack s) = with_ram current caches s.
Proof.
  induction stack as [|[sc h] stack IH]; intros s; simpl.
  - exists (_current s), (_caches s).
    destruct (_current s + size >? _totalLimit s); apply with_ram_same.
  - destruct (_current s + size >? _totalLimit s);
      [|exists (_current s), (_caches s); apply with_ram_same].
    destruct (get (_caches s) h) as [[t d]|];
      [|exists (_current s), (_caches s); apply with_ram_same].
    destruct (IH (with_ram (_current s - len d) (delete (_caches s) h) s)) as (c & cs & ->).
    now exists c, cs.
Qed.

Lemma freeSpace_frame size now s :
  exists current caches, snd (_freeSpaceInRAM size now s) = with_ram current caches s.
Proof.
  unfold _freeSpaceInRAM. destruct (_current s + size >? _totalLimit s).
  - apply free_loop_frame.
  - exists (_current s), (_caches s). apply with_ram_same.
Qed.

Lemma store_frame now hash data s :
  exists current caches, snd (_storeCacheInRAM now hash data s) = with_ram current caches s.
Proof.
  unfold _storeCacheInRAM.
  destruct (get (_caches s) hash) as [[t stored]|]; [now eexists _, _|].
  destruct (len data >? _fileLimit s);
    [exists (_current s), (_caches s); apply with_ram_same|].
  destruct (freeSpace_frame (len data) now s) as (c & cs & E).
  destruct (_freeSpaceInRAM (len data) now s) as [[u|e] s1]; simpl in E; subst s1;
    now eexists _, _.
Qed.

Lemma getByHash_frame now hash readCache s :
  exists current caches, snd (getByHash now hash readCache s) = with_ram current caches s.
Proof.
  unfold getByHash.
  destruct (get (_caches s) hash) as [[t stored]|]; [now eexists _, _|].
  destruct (_longterm s);
    [|exists (_current s), (_caches s); apply with_ram_same].
  destruct readCache as [data|];
    [|exists (_current s), (_caches s); apply with_ram_same].
  destruct (store_frame now hash data s) as (c & cs & E).
  destruct (_storeCacheInRAM now hash data s) as [[inRAM|e] s1]; simpl in E; subst s1;
    now eexists _, _.
Qed.

Lemma path_ok_ram current caches s : path_ok (with_ram current caches s) <-> path_ok s.
Proof. unfold path_ok, path_inv. simpl. tauto. Qed.

Lemma path_ok_put_paths hash paths :
  forall s w, path_ok s -> path_ok (fst (fold_left (put_path hash) paths (s, w))).
Proof.
  induction paths as [|path paths IH]; intros s w H; cbn [fold_left]; [exact H|].
  unfold put_path at 2.
  destruct (match get (_paths s) path with
            | Some (_, h) => negb (h =? hash)%string
            | None => true
            end); [|now apply IH].
  apply IH. now apply path_ok_storePath.
Qed.

Lemma path_ok_getByHash now hash readCache s :
  path_ok s -> path_ok (snd (getByHash now hash readCache s)).
Proof.
  intros H. destruct (getByHash_frame now hash readCache s) as (c & cs & ->).
  now apply path_ok_ram.
Qed.

Lemma path_ok_step s op : path_ok s -> path_ok (step s op).
Proof.
  intros H. destruct op; simpl.
  - unfold put.
    destruct (match _longterm s with Some _ => false | None => true end
              && (len data >? _fileLimit s)); [exact H|].
    pose proof (path_ok_put_paths (sha256_hex data) paths s [] H) as H1.
    destruct (fold_left (put_path (sha256_hex data)) paths (s, [])) as [s1 w1].
    simpl in H1.
    destruct (store_frame now (sha256_hex data) data s1) as (c & cs & E).
    destruct (_storeCacheInRAM now (sha256_hex data) data s1) as [[inRAM|e] s2];
      simpl in *; subst s2; now apply path_ok_ram.
  - now apply path_ok_getByHash.
  - unfold getByPath.
    destruct (get (_paths s) path) as [[index hash]|].
    + now apply path_ok_getByHash.
    + destruct (_longterm s); [|exact H].
      destruct readPath as [hash|]; [|exact H].
      apply path_ok_getByHash. now apply path_ok_storePath.
  - unfold set_totalLimit.
    destruct (freeSpace_frame 0 now (with_totalLimit bytes s)) as (c & cs & ->).
    exact H.
  - exact H.
  - exact H.
  - unfold clear_check. destruct (_longterm s); [|exact H]. destruct found; [|exact H].
    destruct H as [HL _]. split; [exact HL|]. split; [constructor|]. split; [simpl; lia|].
    exists O. simpl. split; [lia | reflexivity].
  - destruct (store_frame now hash data s) as (c & cs & ->). now apply path_ok_ram.
  - apply path_ok_getByHash. now apply path_ok_storePath.
Qed.

Lemma path_ok_run ops : forall s, path_ok s -> path_ok (run s ops).
Proof.
  induction ops as [|op ops IH]; intros s H; simpl; [exact H|].
  apply IH. now apply path_ok_step.
Qed.

Lemma path_ok_new options :
  0 < _pathLimit (new_Cache options) -> path_ok (new_Cache options).
Proof.
  intros HL. split; [exact HL|]. split; [constructor|]. split; [simpl; lia|].
  exists O. split; [|reflexivity].
  change (_pathIndex (new_Cache options)) with 0. lia.
Qed.

(** ** The byte budget (C1) *)



(** ** The eviction pass (C2) *)

Lemma ceil_div_spec a b : 0 < b -> b * (ceil_div a b - 1) < a <= b * ceil_div a b.
Proof.
  intros Hb. unfold ceil_div.
  pose proof (Z.div_mod (- a) b ltac:(lia)) as Hdm.
  pose proof (Z.mod_pos_bound (- a) b Hb) as Hr.
  lia.
Qed.

Lemma ceil_div_mono a a' b : 0 < b -> a <= a' -> ceil_div a b <= ceil_div a' b.
Proof.
  intros Hb Hle.
  pose proof (ceil_div_spec a b Hb). pose proof (ceil_div_spec a' b Hb). nia.
Qed.

Lemma ceil_div_nonneg a b : 0 < b -> 0 <= a -> 0 <= ceil_div a b.
Proof. intros Hb Ha. pose proof (ceil_div_spec a b Hb). nia. Qed.

Lemma largest_score_max f now caches kv :
  largest_score f now caches = Some kv ->
  In kv caches /\ forall e, In e caches -> score_of f now e <= score_of f now kv.
Proof.
  intros H. destruct (largest_score_split _ _ _ _ H) as (o1 & o2 & -> & H1 & H2).
  split; [apply in_or_app; right; now left|].
  intros e He. apply in_app_or in He. rewrite Forall_forall in H1, H2.
  destruct He as [He|[<-|He]]; [now apply H1 | lia |].
  apply H2 in He. lia.
Qed.



(** ** Admission never pops an empty array when the payload can fit (C10) *)

Lemma store_fitting_payload now hash data s :
  cache_inv s -> len data <= _fileLimit s -> len data <= _totalLimit s ->
  fst (_storeCacheInRAM now hash data s) = Normal true.
Proof.
  intros Hinv Hfile Htotal.
  destruct (_storeCacheInRAM now hash data s) as [r s'] eqn:E.
  apply (store_outcome _ _ _ _ Hinv) in E. destruct E as (_ & _ & _ & Hr). simpl.
  destruct r as [[|]|e]; [reflexivity | lia | lia].
Qed.

Lemma store_payload_over_totalLimit now hash data s :
  cache_inv s ->
  get (_caches s) hash = None -> len data <= _fileLimit s -> _totalLimit s < len data ->
  fst (_storeCacheInRAM now hash data s) = Throw TypeError.
Proof.
  intros Hinv G Hfile Htotal. rewrite (store_miss now hash data s G Hfile).
  destruct (_freeSpaceInRAM (len data) now s) as [[u|e] s1] eqn:E1;
    apply (freeSpace_outcome _ _ _ Hinv) in E1.
  - destruct E1 as ((_ & Hc1) & _ & _ & Hfit).
    pose proof (total_len_nonneg (_caches s1)) as Hnn.
    unfold resident_bytes in Hc1. lia.
  - destruct E1 as (_ & _ & _ & -> & _). reflexivity.
Qed.

(** C10. On a state whose accumulator counts the resident bytes, storing a
    payload no longer than [fileLimit] and no longer than [totalLimit] returns
    [true]: the loop stops before [sorted] runs empty. Without the second
    bound it does not: a payload that is not resident, no longer than
    [fileLimit] and longer than [totalLimit] makes the loop pop the empty
    array, which throws. *)
Theorem admission_completes (now : Z) (hash : string) (data : Buffer) (s : Cache) :
  cache_inv s ->
  (len data <= _fileLimit s -> len data <= _totalLimit s ->
   fst (_storeCacheInRAM now hash data s) = Normal true) /\
  (get (_caches s) hash = None -> len data <= _fileLimit s -> _totalLimit s < len data ->
   fst (_storeCacheInRAM now hash data s) = Throw TypeError).
Proof.
  intros Hinv. split.
  - now apply store_fitting_payload.
  - now apply store_payload_over_totalLimit.
Qed.

Lemma admission_completes_witness :
  let s := run (new_Cache ram_only) [Put 10 abc [] false; Put 20 de [] false] in
  cache_inv s /\
  fst (_storeCacheInRAM 30 (sha256_hex fgh) fgh s) = Normal true /\
  fst (_storeCacheInRAM 30 (sha256_hex fgh) fgh (snd (set_totalLimit 25 2 s)))
  = Throw TypeError.
Proof.
  intros s.
  assert (Hinv : cache_inv s) by apply ram_ok_run, ram_ok_new.
  split; [exact Hinv|]. split.
  - apply (proj1 (admission_completes 30 (sha256_hex fgh) fgh s Hinv));
      apply Z.leb_le; vm_compute; reflexivity.
  - apply (proj2 (admission_completes 30 (sha256_hex fgh) fgh
                    (snd (set_totalLimit 25 2 s))
                    (proj1 (ram_ok_set_totalLimit 25 2 s Hinv)))).
    + vm_compute. reflexivity.
    + apply Z.leb_le. vm_compute. reflexivity.
    + apply Z.ltb_lt. vm_compute. reflexivity.
Defined.

(** ** Oversized payloads without a long-term backend (C5) *)

(** C5. With no long-term backend, [put] of a payload longer than
    [fileLimit] rejects with the oversized-payload error before anything
    else: no write is started and the state (entries, paths, resident size)
    is the one before the call. *)
Theorem put_oversized_rejected (now : Z) (data : Buffer) (paths : list string)
    (wait : bool) (s : Cache) :
  _longterm s = None ->
  _fileLimit s < len data ->
  put now data paths wait s
  = {| promise := RejectNow OversizedPayload; waiting := []; after_put := s |} /\
  forall outcomes,
    settle (promise (put now data paths wait s)) outcomes = Throw OversizedPayload.
Proof.
  intros Hlt Hbig.
  assert (E : put now data paths wait s
              = {| promise := RejectNow OversizedPayload; waiting := []; after_put := s |}).
  { unfold put. rewrite Hlt.
    destruct (Z.gtb_spec (len data) (_fileLimit s)); [reflexivity | lia]. }
  split; [exact E|]. intros outcomes. rewrite E. reflexivity.
Qed.

Lemma put_oversized_rejected_witness :
  let s := run (new_Cache ram_only) [Put 10 abc ["a"%string] false] in
  _longterm s = None /\
  _fileLimit s < len [x01; x02; x03; x04] /\
  put 20 [x01; x02; x03; x04] ["d"%string] true s
  = {| promise := RejectNow OversizedPayload; waiting := []; after_put := s |}.
Proof.
  intros s.
  assert (H1 : _longterm s = None) by (vm_compute; reflexivity).
  assert (H2 : _fileLimit s < len [x01; x02; x03; x04])
    by (apply Z.ltb_lt; vm_compute; reflexivity).
  split; [exact H1|]. split; [exact H2|].
  exact (proj1 (put_oversized_rejected 20 [x01; x02; x03; x04] ["d"%string] true s H1 H2)).
Defined.

(** ** The sliding window of paths (C3) *)

Lemma get_app_new {V : Type} (o : list (string * V)) k v :
  get o k = None -> get (o ++ [(k, v)]) k = Some v.
Proof. intros G. rewrite <- (set_new _ _ v G). apply get_set_eq. Qed.



(** ** Content addressing (C4) *)

Lemma resident_true_iff s hash : resident s hash = true <-> In hash (keys (_caches s)).
Proof.
  unfold resident. destruct (get (_caches s) hash) eqn:G.
  - split; [intros _; now apply get_Some_key in G | reflexivity].
  - apply get_None_iff in G. split; [discriminate | tauto].
Qed.

(** [put] of a payload that is resident under its hash leaves the resident
    size and the resident hashes as they are. *)
Lemma put_resident now data paths wait s :
  resident s (sha256_hex data) = true ->
  _current (after_put (put now data paths wait s)) = _current s /\
  keys (_caches (after_put (put now data paths wait s))) = keys (_caches s).
Proof.
  intros Hres. unfold put.
  destruct (match _longterm s with Some _ => false | None => true end
            && (len data >? _fileLimit s)); [split; reflexivity|].
  destruct (put_paths_frame (sha256_hex data) paths s []) as (pi & ps & E).
  destruct (fold_left (put_path (sha256_hex data)) paths (s, [])) as [s1 w1].
  simpl in E. subst s1.
  unfold resident in Hres.
  destruct (get (_caches s) (sha256_hex data)) as [[t stored]|] eqn:G; [|discriminate].
  rewrite (store_hit now (sha256_hex data) data (with_path_tier pi ps s) t stored G).
  simpl. split; [reflexivity|].
  now apply keys_set_present with (v0 := (t, stored)).
Qed.

Lemma puts_resident data more :
  forall s, resident s (sha256_hex data) = true ->
  _current (run s (same_payload data more)) = _current s /\
  keys (_caches (run s (same_payload data more))) = keys (_caches s).
Proof.
  induction more as [|[[n p] w] more IH]; intros s Hres; [split; reflexivity|].
  cbn [same_payload map run fold_left step fst snd].
  destruct (put_resident n data p w s Hres) as [Hc Hk].
  destruct (IH (after_put (put n data p w s))) as [Hc' Hk'].
  - apply resident_true_iff. rewrite Hk. now apply resident_true_iff.
  - unfold run, same_payload in Hc', Hk'. rewrite Hc', Hk'. now split.
Qed.

(** C4. The hash [put] hands back is [sha256_hex] of the payload bytes,
    whatever the state, the clock, the paths and the waiting flag. A [put] of
    bytes resident under their hash leaves the resident size and the set of
    resident hashes unchanged. A [put] of bytes that are not resident and fit
    adds their length once and one entry, and any number of further [put]s of
    the same bytes, under any paths, adds nothing. *)
Theorem put_content_addressed (now : Z) (data : Buffer) (paths : list string)
    (wait : bool) (s : Cache) :
  (forall outcomes hash,
     settle (promise (put now data paths wait s)) outcomes = Normal hash ->
     hash = sha256_hex data) /\
  (resident s (sha256_hex data) = true ->
     _current (after_put (put now data paths wait s)) = _current s /\
     keys (_caches (after_put (put now data paths wait s))) = keys (_caches s)) /\
  (resident s (sha256_hex data) = false ->
   len data <= _fileLimit s -> _current s + len data <= _totalLimit s ->
   forall more,
     let s' := run (after_put (put now data paths wait s)) (same_payload data more) in
     _current s' = _current s + len data /\
     keys (_caches s') = keys (_caches s) ++ [sha256_hex data]).
Proof.
  split; [|split].
  - intros outcomes hash. unfold put.
    destruct (match _longterm s with Some _ => false | None => true end
              && (len data >? _fileLimit s)); [discriminate|].
    destruct (fold_left (put_path (sha256_hex data)) paths (s, [])) as [s1 w1].
    destruct (_storeCacheInRAM now (sha256_hex data) data s1) as [[inRAM|e] s2];
      cbn [promise settle]; [|discriminate].
    destruct (negb wait && inRAM); cbn [settle].
    + now intros [= <-].
    + destruct (forallb (fun ok => ok) outcomes); [now intros [= <-] | discriminate].
  - apply put_resident.
  - intros Hres Hfile Hfit more s'.
    assert (Hput : _current (after_put (put now data paths wait s)) = _current s + len data /\
                   keys (_caches (after_put (put now data paths wait s)))
                   = keys (_caches s) ++ [sha256_hex data]).
    { unfold put.
      destruct (Z.gtb_spec (len data) (_fileLimit s)); [lia|]. rewrite andb_false_r.
      destruct (put_paths_frame (sha256_hex data) paths s []) as (pi & ps & E).
      destruct (fold_left (put_path (sha256_hex data)) paths (s, [])) as [s1 w1].
      simpl in E. subst s1.
      unfold resident in Hres.
      destruct (get (_caches s) (sha256_hex data)) eqn:G; [discriminate|].
      rewrite store_miss by assumption.
      unfold _freeSpaceInRAM. cbn [with_path_tier _current _totalLimit].
      destruct (Z.gtb_spec (_current s + len data) (_totalLimit s)); [lia|].
      cbn. split; [reflexivity|]. unfold keys. now rewrite map_app. }
    destruct Hput as [Hc Hk].
    destruct (puts_resident data more (after_put (put now data paths wait s))) as [Hc' Hk'].
    + apply resident_true_iff. rewrite Hk. apply in_or_app. right. now left.
    + unfold s'. rewrite Hc', Hk', Hc, Hk. now split.
Qed.

Lemma put_content_addressed_witness :
  let s := run (new_Cache ram_only) [Put 10 de ["b"%string] false] in
  let more := [(30, ["c"%string], false); (40, ["a"; "x"]%string, true); (50, [], false)] in
  let s' := run (after_put (put 20 abc ["a"%string] false s)) (same_payload abc more) in
  resident s (sha256_hex abc) = false /\
  len abc <= _fileLimit s /\ _current s + len abc <= _totalLimit s /\
  _current s = 2 /\
  _current s' = _current s + len abc /\
  keys (_caches s') = keys (_caches s) ++ [sha256_hex abc].
Proof.
  intros s more s'.
  assert (H1 : resident s (sha256_hex abc) = false) by (vm_compute; reflexivity).
  assert (H2 : len abc <= _fileLimit s) by (apply Z.leb_le; vm_compute; reflexivity).
  assert (H3 : _current s + len abc <= _totalLimit s)
    by (apply Z.leb_le; vm_compute; reflexivity).
  split; [exact H1|]. split; [exact H2|]. split; [exact H3|].
  split; [vm_compute; reflexivity|].
  exact (proj2 (proj2 (put_content_addressed 20 abc ["a"%string] false s)) H1 H2 H3 more).
Defined.

(** ** When [put] settles (C6) *)

Lemma free_loop_path_tier size stack pathIndex paths :
  forall s,
  free_loop size stack (with_path_tier pathIndex paths s)
  = (fst (free_loop size stack s), with_path_tier pathIndex paths (snd (free_loop size stack s))).
Proof.
  induction stack as [|[sc h] stack IH]; intros s; simpl.
  - destruct (_current s + size >? _totalLimit s); reflexivity.
  - destruct (_current s + size >? _totalLimit s); [|reflexivity].
    destruct (get (_caches s) h) as [[t d]|]; [|reflexivity].
    apply (IH (with_ram (_current s - len d) (delete (_caches s) h) s)).
Qed.

(** Whether a payload gets into RAM does not depend on the paths. *)
Lemma store_path_tier now hash data pathIndex paths s :
  fst (_storeCacheInRAM now hash data (with_path_tier pathIndex paths s))
  = fst (_storeCacheInRAM now hash data s).
Proof.
  unfold _storeCacheInRAM. cbn [with_path_tier _caches _fileLimit].
  destruct (get (_caches s) hash) as [[t stored]|]; [reflexivity|].
  destruct (len data >? _fileLimit s); [reflexivity|].
  unfold _freeSpaceInRAM. cbn [with_path_tier _caches _current _totalLimit _scoreFunc].
  destruct (_current s + len data >? _totalLimit s); [|reflexivity].
  rewrite free_loop_path_tier.
  destruct (free_loop (len data) _ s) as [[u|e] s1]; reflexivity.
Qed.

(** The only exception of the RAM tier is the one of the eviction loop. *)
Lemma free_loop_throws size stack :
  forall s e, fst (free_loop size stack s) = Throw e -> e = TypeError.
Proof.
  induction stack as [|[sc h] stack IH]; intros s e; simpl.
  - destruct (_current s + size >? _totalLimit s); simpl; congruence.
  - destruct (_current s + size >? _totalLimit s); [|discriminate].
    destruct (get (_caches s) h) as [[t d]|]; [apply IH | simpl; congruence].
Qed.

Lemma store_throws now hash data s e :
  fst (_storeCacheInRAM now hash data s) = Throw e -> e = TypeError.
Proof.
  unfold _storeCacheInRAM.
  destruct (get (_caches s) hash) as [[t stored]|]; [discriminate|].
  destruct (len data >? _fileLimit s); [discriminate|].
  unfold _freeSpaceInRAM.
  destruct (_current s + len data >? _totalLimit s); [|discriminate].
  pose proof (free_loop_throws (len data)
                (rev (sort (scored (_scoreFunc s) now (_caches s)))) s) as H.
  destruct (free_loop (len data) _ s) as [[u|e'] s1]; [discriminate|].
  simpl. intros [= <-]. now apply H.
Qed.

(** [_storeCacheInRAM] answers [false] for one reason only. *)
Lemma store_false now hash data s :
  fst (_storeCacheInRAM now hash data s) = Normal false -> _fileLimit s < len data.
Proof.
  unfold _storeCacheInRAM.
  destruct (get (_caches s) hash) as [[t stored]|]; [discriminate|].
  destruct (Z.gtb_spec (len data) (_fileLimit s)); [intros _; assumption|].
  destruct (_freeSpaceInRAM (len data) now s) as [[u|e] s1]; discriminate.
Qed.

(** The promise of a [put] that gets past the size check. *)
Lemma put_promise now data paths wait s :
  (_longterm s <> None \/ len data <= _fileLimit s) ->
  promise (put now data paths wait s)
  = match fst (_storeCacheInRAM now (sha256_hex data) data s) with
    | Throw e => RejectNow e
    | Normal inRAM =>
        if negb wait && inRAM then ResolveNow (sha256_hex data)
        else AfterWaiting (sha256_hex data)
    end.
Proof.
  intros Hgo. unfold put.
  assert (Hc : match _longterm s with Some _ => false | None => true end
               && (len data >? _fileLimit s) = false).
  { destruct Hgo as [Hlt|Hsz].
    - destruct (_longterm s); [reflexivity | congruence].
    - destruct (Z.gtb_spec (len data) (_fileLimit s)); [lia | apply andb_false_r]. }
  rewrite Hc.
  destruct (put_paths_frame (sha256_hex data) paths s []) as (pi & ps & E).
  destruct (fold_left (put_path (sha256_hex data)) paths (s, [])) as [s1 w1].
  simpl in E. subst s1.
  rewrite <- (store_path_tier now (sha256_hex data) data pi ps s).
  destruct (_storeCacheInRAM now (sha256_hex data) data (with_path_tier pi ps s))
    as [[inRAM|e] s2]; reflexivity.
Qed.

(** The writes [put] starts do not depend on the waiting flag. *)
Lemma put_waiting_any_flag now data paths wait s :
  waiting (put now data paths wait s) = waiting (put now data paths (negb wait) s).
Proof.
  unfold put.
  destruct (match _longterm s with Some _ => false | None => true end
            && (len data >? _fileLimit s)); [reflexivity|].
  destruct (fold_left (put_path (sha256_hex data)) paths (s, [])) as [s1 w1].
  destruct (_storeCacheInRAM now (sha256_hex data) data s1) as [[inRAM|e] s2]; reflexivity.
Qed.




(** ** The long-term payload write (C7) *)

Lemma Buffer_compare_refl a : Buffer_compare a a = 0.
Proof. induction a as [|x a IH]; simpl; [reflexivity|]. now rewrite N.compare_refl. Qed.

Lemma Buffer_compare_eq a b : Buffer_compare a b = 0 -> a = b.
Proof.
  revert b. induction a as [|x a IH]; intros [|y b]; simpl; try discriminate; [reflexivity|].
  destruct (N.compare_spec (Byte.to_N x) (Byte.to_N y)) as [E| |]; try discriminate.
  intros H. f_equal; [|now apply IH].
  apply (f_equal Byte.of_N) in E. rewrite !Byte.of_to_N in E. now injection E.
Qed.

(** With a backend, [put] of bytes that are resident under their hash
    starts the payload write all the same. *)
Lemma put_writeCache_when_resident now data paths wait s backend t :
  _longterm s = Some backend ->
  get (_caches s) (sha256_hex data) = Some (t, data) ->
  In (writeCache (sha256_hex data) data) (waiting (put now data paths wait s)).
Proof.
  intros Hlt G. unfold put. rewrite Hlt. cbn [andb].
  destruct (put_paths_frame (sha256_hex data) paths s []) as (pi & ps & E).
  destruct (fold_left (put_path (sha256_hex data)) paths (s, [])) as [s1 w1].
  simpl in E. subst s1. cbn [with_path_tier _longterm]. rewrite Hlt.
  unfold pushes_writeCache. cbn [with_path_tier _caches]. rewrite G.
  rewrite Buffer_compare_refl. cbn [Z.eqb].
  destruct (_storeCacheInRAM now (sha256_hex data) data (with_path_tier pi ps s))
    as [[inRAM|e] s2]; cbn [waiting]; apply in_or_app; right; now left.
Qed.

(** C7, on the code: after a first [put] of two bytes into an instance with
    a long-term folder, the bytes are resident under their hash, and a second
    [put] of the same bytes starts [writeCache] again, although the comment
    on that test reads "if in RAM it must also be in long term so save the
    write": [Buffer.compare(...)===0] holds when the bytes are equal. *)
Lemma put_writes_resident_payload_again :
  let s1 := after_put (put 10 de [] false (new_Cache with_folder)) in
  get (_caches s1) (sha256_hex de) = Some (10, de) /\
  waiting (put 20 de [] false s1) = [writeCache (sha256_hex de) de].
Proof. vm_compute. split; reflexivity. Qed.

(** ** [getByHash] (C8) *)




(** ** Deleting paths (C9) *)

Lemma get_removeByPrefix {V : Type} (start : string) (o : list (string * V)) k :
  get (removeByPrefix start o) k = if String.prefix start k then None else get o k.
Proof.
  induction o as [|[k0 v0] o IH]; simpl.
  - now destruct (String.prefix start k).
  - destruct (String.prefix start k0) eqn:P0; simpl;
      destruct (String.eqb_spec k k0) as [->|Hne]; rewrite ?IH, ?P0; reflexivity.
Qed.

Lemma get_delete {V : Type} (o : list (string * V)) path k :
  get (delete o path) k = if String.eqb k path then None else get o k.
Proof.
  destruct (String.eqb_spec k path) as [->|Hne].
  - apply get_delete_eq.
  - now apply get_delete_ne.
Qed.


(** ** The scenarios of the repository's tests *)

(** "Test No Longterm": the sizes the test reads, the rejected oversized
    payloads, the lookup that fails after the eviction. *)
Example test_no_longterm :
  let c0 := new_Cache tests_ram in
  let s1 := run c0 [Put 1000 file0500 ["a"%string] false] in
  let s2 := run s1 [Put 1010 file0900 ["b"%string] false] in
  let s3 := run s2 [Put 1020 file0500 ["c"%string] false;
                    GetByPath 1030 "a" None None; GetByPath 1040 "b" None None;
                    GetByPath 1050 "c" None None;
                    GetByHash 1060 (sha256_hex file0500) None] in
  let s4 := run s3 (map (fun td => Put (fst td) (snd td) ["d"%string] false)
                        (combine [1100; 1110; 1120; 1130; 1140; 1150; 1160; 1170] fillFiles)) in
  let s5 := run s4 [Put 1200 file0400 [] false] in
  let s6 := run s5 [SetFileLimit 600] in
  let s7 := run s6 [SetTotalLimit 1230 2500] in
  let s8 := run s7 [SetTotalLimit 1240 5000;
                    Put 1250 file0300 ["xa"; "xb"; "xc"; "xd/a"]%string false] in
  (map _current [s1; s2; s3; s4; s5; s7; s8],
   promise (put 1070 file1200 ["d"%string] false s3),
   fst (getByPath 1180 "d" None None s4),
   fst (getByPath 1210 "b" None None s5),
   promise (put 1220 file0900 [] false s6),
   map (fun p => fst (getByPath 1260 p None None s8)) ["xa"; "xb"; "xc"; "xd/a"]%string)
  = ([500; 1400; 1400; 5000; 4500; 2400; 2700],
     RejectNow OversizedPayload,
     Normal (file x17 500),
     Throw NotFound,
     RejectNow OversizedPayload,
     [Normal file0300; Normal file0300; Normal file0300; Normal file0300]).
Proof. vm_compute. reflexivity. Qed.

(** "Test unlimited": limits given as 0 fall back to the defaults. *)
Example test_unlimited :
  _current (run (new_Cache {| fileLimit := Some 0; totalLimit := Some 0; longterm := None;
                              pathLimit := Some 0; debug := None;
                              clearCheckInterval := None |})
                [Put 1000 file0500 ["a"%string] false]) = 500.
Proof. vm_compute. reflexivity. Qed.

(** "Test File System", the deletions: five paths for one payload, a sixth
    path that pushes ["a"] out of RAM, then [deleteByPath("test/59")] and
    [deleteByPathStart("test/5")]. *)
Example test_file_system_deletes :
  let c0 := new_Cache tests_temp in
  let r1 := put 10 de ["a"; "test/56"; "test/59"; "test/5"; "test/4"]%string true c0 in
  let r2 := put 20 abc ["b"%string] true (after_put r1) in
  let d2 := fold_left apply_write (waiting r1 ++ waiting r2)
                      {| durable_paths := []; durable_caches := [] |} in
  let sd3 := deleteByPath "test/59" (after_put r2) d2 in
  let sd4 := deleteByPathStart "test/5" (fst sd3) (snd sd3) in
  (keys (_paths (after_put r2)), keys (durable_paths d2),
   keys (_paths (fst sd3)), keys (durable_paths (snd sd3)),
   keys (_paths (fst sd4)), keys (durable_paths (snd sd4)),
   keys (_caches (fst sd4)), keys (durable_caches (snd sd4)))
  = (["test/56"; "test/59"; "test/5"; "test/4"; "b"],
     ["a"; "test/56"; "test/59"; "test/5"; "test/4"; "b"],
     ["test/56"; "test/5"; "test/4"; "b"], ["a"; "test/56"; "test/5"; "test/4"; "b"],
     ["test/4"; "b"], ["a"; "test/4"; "b"],
     [sha256_hex de], [sha256_hex de; sha256_hex abc])%string.
Proof. vm_compute. reflexivity. Qed.

(** * Further properties of the code *)

(** ** The shape of a hash, and the hexadecimal files of the adapter *)

Lemma hex_digit_lower d : is_lower_hex (SHA256.hex_digit d) = true.
Proof.
  destruct d as [|p]; [reflexivity|].
  do 4 (destruct p as [p|p|]; try reflexivity).
Qed.

Lemma hex_shape n : forall x tail,
  lower_hex tail = true ->
  lower_hex (SHA256.hex n x tail) = true /\
  String.length (SHA256.hex n x tail) = (n + String.length tail)%nat.
Proof.
  induction n as [|n IH]; intros x tail Ht; [now split|].
  change (SHA256.hex (S n) x tail)
    with (SHA256.hex n (N.shiftr x 4) (String (SHA256.hex_digit (N.land x 0xF)) tail)).
  destruct (IH (N.shiftr x 4) (String (SHA256.hex_digit (N.land x 0xF)) tail)) as [H1 H2].
  - cbn [lower_hex]. now rewrite hex_digit_lower.
  - split; [exact H1|]. rewrite H2. cbn [String.length]. lia.
Qed.

Lemma hexwords_shape ws :
  lower_hex (fold_right (fun w acc => SHA256.hex 8 w acc) EmptyString ws) = true /\
  String.length (fold_right (fun w acc => SHA256.hex 8 w acc) EmptyString ws)
  = (8 * List.length ws)%nat.
Proof.
  induction ws as [|w ws [IH1 IH2]]; [now split|].
  cbn [fold_right]. destruct (hex_shape 8 w _ IH1) as [H1 H2].
  split; [exact H1|]. rewrite H2, IH2. cbn [List.length]. lia.
Qed.

Lemma sha256_hex_shape data :
  String.length (sha256_hex data) = 64%nat /\ lower_hex (sha256_hex data) = true.
Proof.
  unfold sha256_hex, SHA256.hexdigest.
  destruct (hexwords_shape (SHA256.digest (map Byte.to_N data))) as [H1 H2].
  split; [|exact H1]. rewrite H2. unfold SHA256.digest.
  destruct (SHA256.blocks _ _ _) as [[[[[[[a b] c] d] e] f] g] h]. reflexivity.
Qed.

Lemma is_lower_hex_cases c :
  is_lower_hex c = true ->
  In c ["0"; "1"; "2"; "3"; "4"; "5"; "6"; "7"; "8"; "9"; "a"; "b"; "c"; "d"; "e"; "f"]%char.
Proof.
  unfold is_lower_hex. intros H. apply existsb_exists in H.
  destruct H as (x & Hin & Heq). apply Ascii.eqb_eq in Heq. now subst.
Qed.

Lemma hex_pair_round_trip c1 c2 rest :
  is_lower_hex c1 = true -> is_lower_hex c2 = true ->
  toString_hex (Buffer_from_hex (String c1 (String c2 rest)))
  = String c1 (String c2 (toString_hex (Buffer_from_hex rest))).
Proof.
  intros H1 H2. apply is_lower_hex_cases in H1. apply is_lower_hex_cases in H2.
  cbn [In] in H1, H2.
  repeat (destruct H1 as [<-|H1]); try contradiction;
    repeat (destruct H2 as [<-|H2]); try contradiction; reflexivity.
Qed.

(** Decoding then encoding gives back a string of an even number of
    lowercase hexadecimal digits. *)
Lemma hex_round_trip n : forall str,
  String.length str = (2 * n)%nat -> lower_hex str = true ->
  toString_hex (Buffer_from_hex str) = str.
Proof.
  induction n as [|n IH]; intros str Hlen Hhex.
  - destruct str; [reflexivity | discriminate].
  - destruct str as [|c1 [|c2 rest]]; try (cbn in Hlen; lia).
    cbn [lower_hex] in Hhex. apply andb_prop in Hhex. destruct Hhex as [H1 Hhex].
    apply andb_prop in Hhex. destruct Hhex as [H2 Hrest].
    rewrite hex_pair_round_trip by assumption.
    rewrite IH; [reflexivity | cbn in Hlen; lia | exact Hrest].
Qed.

Lemma put_settles_with_hash now data paths wait s outcomes hash :
  settle (promise (put now data paths wait s)) outcomes = Normal hash ->
  hash = sha256_hex data.
Proof.
  unfold put.
  destruct (match _longterm s with Some _ => false | None => true end
            && (len data >? _fileLimit s)); [discriminate|].
  destruct (fold_left (put_path (sha256_hex data)) paths (s, [])) as [s1 w1].
  destruct (_storeCacheInRAM now (sha256_hex data) data s1) as [[inRAM|e] s2];
    cbn [promise settle]; [|discriminate].
  destruct (negb wait && inRAM); cbn [settle].
  - now intros [= <-].
  - destruct (forallb (fun ok => ok) outcomes); [now intros [= <-] | discriminate].
Qed.

(** X1. A hash that [put] resolves with is 64 characters long, all of them
    digits or letters from a to f in lowercase. *)
Theorem put_hash_shape (now : Z) (data : Buffer) (paths : list string) (wait : bool)
    (s : Cache) (outcomes : list bool) (hash : string) :
  settle (promise (put now data paths wait s)) outcomes = Normal hash ->
  String.length hash = 64%nat /\ lower_hex hash = true.
Proof.
  intros H. apply put_settles_with_hash in H. subst hash. apply sha256_hex_shape.
Qed.

Lemma put_hash_shape_witness :
  settle (promise (put 10 abc ["a"%string] false (new_Cache ram_only))) []
  = Normal "ba7816bf8f01cfea414140de5dae2223b00361a396177a9cb410ff61f20015ad"%string /\
  String.length "ba7816bf8f01cfea414140de5dae2223b00361a396177a9cb410ff61f20015ad" = 64%nat.
Proof.
  assert (H : settle (promise (put 10 abc ["a"%string] false (new_Cache ram_only))) []
              = Normal "ba7816bf8f01cfea414140de5dae2223b00361a396177a9cb410ff61f20015ad"%string)
    by (vm_compute; reflexivity).
  split; [exact H|].
  exact (proj1 (put_hash_shape 10 abc ["a"%string] false (new_Cache ram_only) [] _ H)).
Defined.



(** ** The paths and the writes of [put] *)

Lemma storePath_other q p hash s :
  q <> p ->
  get (_paths (_storePathInRAM q hash s)) p = get (_paths s) p \/
  get (_paths (_storePathInRAM q hash s)) p = None.
Proof.
  intros Hne. assert (Hne' : p <> q) by congruence.
  unfold _storePathInRAM.
  destruct (get (_paths s) q) as [[index old]|]; cbn [with_path_tier _paths].
  - left. now apply get_set_ne.
  - destruct (_pathIndex s + 1 >? _pathLimit s); cbn [with_path_tier _paths];
      [|left; now apply get_set_ne].
    destruct (find_index _ _) as [victim|]; cbn [with_path_tier _paths];
      [|left; now apply get_set_ne].
    rewrite get_delete. destruct (p =? victim)%string; [now right|].
    left. now apply get_set_ne.
Qed.

Lemma storePath_self p hash s :
  get (_paths (_storePathInRAM p hash s)) p = None \/
  exists index, get (_paths (_storePathInRAM p hash s)) p = Some (index, hash).
Proof.
  unfold _storePathInRAM.
  destruct (get (_paths s) p) as [[index old]|]; cbn [with_path_tier _paths].
  - right. exists index. apply get_set_eq.
  - destruct (_pathIndex s + 1 >? _pathLimit s); cbn [with_path_tier _paths];
      [|right; eexists; apply get_set_eq].
    destruct (find_index _ _) as [victim|]; cbn [with_path_tier _paths];
      [|right; eexists; apply get_set_eq].
    rewrite get_delete. destruct (p =? victim)%string; [now left|].
    right. eexists. apply get_set_eq.
Qed.

(** With a positive limit the path just stored is resident. *)
Lemma storePath_resident p hash s :
  path_ok s -> exists index, get (_paths (_storePathInRAM p hash s)) p = Some (index, hash).
Proof.
  intros [HL Hinv].
  destruct (get (_paths s) p) as [[index old]|] eqn:G.
  - rewrite (storePath_present _ _ _ _ _ G). exists index. apply get_set_eq.
  - destruct (Z.lt_ge_cases (Z.of_nat (List.length (_paths s))) (_pathLimit s)) as [Hroom|Hfull].
    + rewrite storePath_new_room by assumption. eexists. now apply get_app_new.
    + destruct (storePath_new_full p hash s Hinv HL G Hfull)
        as (victim & vhash & rest & E & _ & _ & ->).
      eexists. cbn [with_path_tier _paths]. apply get_app_new.
      rewrite E in G. cbn [get] in G.
      destruct (p =? victim)%string; [discriminate | exact G].
Qed.

Lemma storePath_longterm p hash s : _longterm (_storePathInRAM p hash s) = _longterm s.
Proof. rewrite storePath_frame. reflexivity. Qed.

Lemma put_path_fst hash s w path :
  fst (put_path hash (s, w) path) = _storePathInRAM path hash s \/
  (fst (put_path hash (s, w) path) = s /\
   exists index, get (_paths s) path = Some (index, hash)).
Proof.
  unfold put_path.
  destruct (get (_paths s) path) as [[index h]|] eqn:G; [|now left].
  destruct (String.eqb_spec h hash) as [->|Hne]; cbn [negb]; [|now left].
  right. split; [reflexivity|]. now exists index.
Qed.

Lemma put_paths_point hash paths p :
  forall s w,
  In p paths \/ points_nowhere_else hash s p ->
  points_nowhere_else hash (fst (fold_left (put_path hash) paths (s, w))) p.
Proof.
  induction paths as [|q paths IH]; intros s w H; cbn [fold_left].
  - destruct H as [[]|H]. exact H.
  - destruct (put_path hash (s, w) q) as [s1 w1] eqn:E.
    apply IH.
    destruct (String.eqb_spec q p) as [->|Hne].
    + right. pose proof (put_path_fst hash s w p) as Hf. rewrite E in Hf. cbn [fst] in Hf.
      destruct Hf as [->|[-> Hm]]; [apply storePath_self | now right].
    + destruct H as [[Hq|Hin]|Hpt]; [congruence | now left |].
      right. pose proof (put_path_fst hash s w q) as Hf. rewrite E in Hf. cbn [fst] in Hf.
      destruct Hf as [->|[-> _]]; [|exact Hpt].
      destruct (storePath_other q p hash s Hne) as [Hsame|Hnone]; [|now left].
      unfold points_nowhere_else. rewrite Hsame. exact Hpt.
Qed.

Lemma put_paths_last hash ps p s w :
  path_ok s ->
  exists index,
    get (_paths (fst (fold_left (put_path hash) (ps ++ [p]) (s, w)))) p = Some (index, hash).
Proof.
  intros Hok. rewrite fold_left_app. cbn [fold_left].
  pose proof (path_ok_put_paths hash ps s w Hok) as Hok1.
  destruct (fold_left (put_path hash) ps (s, w)) as [s1 w1]. cbn [fst] in Hok1.
  destruct (put_path_fst hash s1 w1 p) as [->|[-> Hm]]; [|exact Hm].
  now apply storePath_resident.
Qed.

Lemma put_paths_longterm hash paths :
  forall s w, _longterm (fst (fold_left (put_path hash) paths (s, w))) = _longterm s.
Proof.
  intros s w. destruct (put_paths_frame hash paths s w) as (pi & ps & ->). reflexivity.
Qed.

Lemma put_paths_keep hash paths x :
  forall s w, In x w -> In x (snd (fold_left (put_path hash) paths (s, w))).
Proof.
  induction paths as [|q paths IH]; intros s w H; cbn [fold_left]; [exact H|].
  unfold put_path at 2.
  destruct (match get (_paths s) q with
            | Some (_, h) => negb (h =? hash)%string
            | None => true
            end); [|now apply IH].
  apply IH. destruct (_longterm s); [apply in_or_app; now left | exact H].
Qed.

Lemma put_paths_writes hash data paths :
  forall s w,
  Forall (write_of hash data) w ->
  Forall (write_of hash data) (snd (fold_left (put_path hash) paths (s, w))).
Proof.
  induction paths as [|q paths IH]; intros s w H; cbn [fold_left]; [exact H|].
  unfold put_path at 2.
  destruct (match get (_paths s) q with
            | Some (_, h) => negb (h =? hash)%string
            | None => true
            end); [|now apply IH].
  apply IH. destruct (_longterm s); [|exact H].
  apply Forall_app. split; [exact H|]. constructor; [|constructor].
  left. now exists q.
Qed.

Lemma put_paths_no_backend hash paths :
  forall s w, _longterm s = None -> snd (fold_left (put_path hash) paths (s, w)) = w.
Proof.
  induction paths as [|q paths IH]; intros s w H; cbn [fold_left]; [reflexivity|].
  unfold put_path at 2.
  destruct (match get (_paths s) q with
            | Some (_, h) => negb (h =? hash)%string
            | None => true
            end); [|now apply IH].
  rewrite IH by (rewrite storePath_longterm; exact H). now rewrite H.
Qed.

(** The first turn for a path that is not mapped to the hash starts its
    write. *)
Lemma put_paths_writePath hash paths p backend :
  forall s w,
  _longterm s = Some backend ->
  In p paths ->
  (forall index, get (_paths s) p <> Some (index, hash)) ->
  In (writePath p hash) (snd (fold_left (put_path hash) paths (s, w))).
Proof.
  induction paths as [|q paths IH]; intros s w Hlt Hin Hnot; [destruct Hin|].
  cbn [fold_left].
  destruct (String.eqb_spec q p) as [->|Hne].
  - unfold put_path at 2.
    destruct (get (_paths s) p) as [[index h]|] eqn:G.
    + destruct (String.eqb_spec h hash) as [->|Hh]; [exfalso; now apply (Hnot index)|].
      cbn [negb]. apply put_paths_keep. rewrite Hlt. apply in_or_app. right. now left.
    + apply put_paths_keep. rewrite Hlt. apply in_or_app. right. now left.
  - destruct Hin as [Hq|Hin]; [congruence|].
    destruct (put_path hash (s, w) q) as [s1 w1] eqn:E.
    pose proof (put_path_fst hash s w q) as Hf. rewrite E in Hf. cbn [fst] in Hf.
    apply IH; [|exact Hin|].
    + destruct Hf as [->|[-> _]]; [now rewrite storePath_longterm | exact Hlt].
    + intros index. destruct Hf as [->|[-> _]]; [|apply Hnot].
      destruct (storePath_other q p hash s Hne) as [-> | ->]; [apply Hnot | discriminate].
Qed.

(** A [put] that gets past the size check, step by step. *)
Lemma put_steps now data paths wait s :
  (_longterm s <> None \/ len data <= _fileLimit s) ->
  exists pathIndex paths',
    let hash := sha256_hex data in
    let s1 := with_path_tier pathIndex paths' s in
    fold_left (put_path hash) paths (s, [])
    = (s1, snd (fold_left (put_path hash) paths (s, []))) /\
    after_put (put now data paths wait s) = snd (_storeCacheInRAM now hash data s1) /\
    waiting (put now data paths wait s)
    = snd (fold_left (put_path hash) paths (s, []))
      ++ match _longterm s with
         | Some _ => if pushes_writeCache hash data s then [writeCache hash data] else []
         | None => []
         end.
Proof.
  intros Hgo.
  destruct (put_paths_frame (sha256_hex data) paths s []) as (pi & ps & E).
  exists pi, ps. cbn zeta. unfold put.
  assert (Hc : match _longterm s with Some _ => false | None => true end
               && (len data >? _fileLimit s) = false).
  { destruct Hgo as [Hlt|Hsz].
    - destruct (_longterm s); [reflexivity | congruence].
    - destruct (Z.gtb_spec (len data) (_fileLimit s)); [lia | apply andb_false_r]. }
  rewrite Hc.
  destruct (fold_left (put_path (sha256_hex data)) paths (s, [])) as [s1 w1].
  cbn [fst snd] in *. subst s1. split; [reflexivity|].
  cbn [with_path_tier _longterm].
  assert (Hp : pushes_writeCache (sha256_hex data) data (with_path_tier pi ps s)
               = pushes_writeCache (sha256_hex data) data s) by reflexivity.
  rewrite Hp.
  destruct (_storeCacheInRAM now (sha256_hex data) data (with_path_tier pi ps s))
    as [[inRAM|e] s2]; cbn [after_put waiting snd]; (split; [reflexivity|]);
    destruct (_longterm s); try (now rewrite app_nil_r);
    destruct (pushes_writeCache (sha256_hex data) data s); try reflexivity;
    now rewrite app_nil_r.
Qed.

Lemma cache_inv_path_tier pathIndex paths s :
  cache_inv (with_path_tier pathIndex paths s) <-> cache_inv s.
Proof. unfold cache_inv, resident_bytes. simpl. tauto. Qed.

Lemma put_paths_after now data paths wait s :
  (_longterm s <> None \/ len data <= _fileLimit s) ->
  (forall p, In p paths ->
     points_nowhere_else (sha256_hex data) (after_put (put now data paths wait s)) p) /\
  (forall ps p, path_ok s -> paths = ps ++ [p] ->
     exists index,
       get (_paths (after_put (put now data paths wait s))) p
       = Some (index, sha256_hex data)).
Proof.
  intros Hgo.
  destruct (put_steps now data paths wait s Hgo) as (pi & ps0 & Hfold & Hafter & _).
  cbn zeta in Hfold, Hafter.
  assert (Hpaths : _paths (after_put (put now data paths wait s))
                   = _paths (fst (fold_left (put_path (sha256_hex data)) paths (s, [])))).
  { rewrite Hafter, Hfold. cbn [fst].
    destruct (store_frame now (sha256_hex data) data (with_path_tier pi ps0 s)) as (c & cs & ->).
    reflexivity. }
  split.
  - intros p Hin. unfold points_nowhere_else. rewrite Hpaths.
    apply (put_paths_point (sha256_hex data) paths p s []). now left.
  - intros ps p Hok ->. rewrite Hpaths. now apply put_paths_last.
Qed.

(** X3. After a [put] that gets past the size check, no path of the call
    is mapped to another hash: each is mapped to the hash of the payload or,
    pushed out of the window by the later paths of the call, not mapped at
    all. On an instance whose path window is in order, the last path of the
    call is mapped to the hash. *)
Theorem put_maps_its_paths (now : Z) (data : Buffer) (paths : list string) (wait : bool)
    (s : Cache) :
  (_longterm s <> None \/ len data <= _fileLimit s) ->
  let s' := after_put (put now data paths wait s) in
  (forall p, In p paths -> points_nowhere_else (sha256_hex data) s' p) /\
  (forall ps p, path_ok s -> paths = ps ++ [p] ->
     exists index, get (_paths s') p = Some (index, sha256_hex data)).
Proof. intros Hgo s'. now apply put_paths_after. Qed.

Lemma put_maps_its_paths_witness :
  let s := new_Cache ram_only in
  let s' := after_put (put 10 abc ["a"; "b"; "c"]%string false s) in
  (_longterm s <> None \/ len abc <= _fileLimit s) /\
  map (fun p => option_map snd (get (_paths s') p)) ["a"; "b"; "c"]%string
  = [None; Some (sha256_hex abc); Some (sha256_hex abc)] /\
  (exists index, get (_paths s') "c" = Some (index, sha256_hex abc)).
Proof.
  intros s s'.
  assert (Hgo : _longterm s <> None \/ len abc <= _fileLimit s)
    by (right; apply Z.leb_le; vm_compute; reflexivity).
  split; [exact Hgo|]. split; [vm_compute; reflexivity|].
  apply (proj2 (put_maps_its_paths 10 abc ["a"; "b"; "c"]%string false s Hgo)
               ["a"; "b"]%string "c"%string).
  - apply path_ok_new. apply Z.ltb_lt. vm_compute. reflexivity.
  - reflexivity.
Defined.

(** ** What was put is what is looked up *)

(** X4. On an instance whose counters are in order, after a [put] of bytes
    that were not resident and that fit both limits, [getByHash] of the hash
    and [getByPath] of the last path of the call return those bytes from RAM,
    whatever the backend would answer. *)
Theorem put_then_get (now now' : Z) (data : Buffer) (ps : list string) (p : string)
    (wait : bool) (s : Cache) (readPath : option string) (readCache : option Buffer) :
  cache_inv s -> path_ok s ->
  get (_caches s) (sha256_hex data) = None ->
  len data <= _fileLimit s -> len data <= _totalLimit s ->
  let s' := after_put (put now data (ps ++ [p]) wait s) in
  fst (getByHash now' (sha256_hex data) readCache s') = Normal data /\
  fst (getByPath now' p readPath readCache s') = Normal data.
Proof.
  intros Hinv Hok G Hfile Htotal s'.
  assert (Hgo : _longterm s <> None \/ len data <= _fileLimit s) by now right.
  destruct (put_steps now data (ps ++ [p]) wait s Hgo) as (pi & ps0 & _ & Hafter & _).
  cbn zeta in Hafter.
  assert (Hres : get (_caches s') (sha256_hex data) = Some (now, data)).
  { unfold s'. rewrite Hafter.
    assert (Hinv1 : cache_inv (with_path_tier pi ps0 s)) by now apply cache_inv_path_tier.
    pose proof (store_fitting_payload now (sha256_hex data) data _ Hinv1 Hfile Htotal) as Hfst.
    destruct (_storeCacheInRAM now (sha256_hex data) data (with_path_tier pi ps0 s))
      as [r s2] eqn:E.
    cbn [fst snd] in *. subst r.
    apply (store_outcome _ _ _ _ Hinv1) in E.
    destruct E as (_ & _ & _ & [(t & stored & G' & _)|(_ & _ & G')]); [|exact G'].
    cbn [with_path_tier _caches] in G'. congruence. }
  assert (Hhash : fst (getByHash now' (sha256_hex data) readCache s') = Normal data).
  { unfold getByHash. now rewrite Hres. }
  split; [exact Hhash|].
  destruct (proj2 (put_paths_after now data (ps ++ [p]) wait s Hgo) ps p Hok eq_refl)
    as (index & Hp).
  fold s' in Hp. unfold getByPath. rewrite Hp. exact Hhash.
Qed.

Lemma put_then_get_witness :
  let s := run (new_Cache ram_only) [Put 5 de ["x"%string] false] in
  let s' := after_put (put 10 abc (["a"%string] ++ ["b"%string]) false s) in
  cache_inv s /\ path_ok s /\
  get (_caches s) (sha256_hex abc) = None /\
  len abc <= _fileLimit s /\ len abc <= _totalLimit s /\
  fst (getByHash 20 (sha256_hex abc) None s') = Normal abc /\
  fst (getByPath 20 "b" None None s') = Normal abc.
Proof.
  intros s s'.
  assert (Hinv : cache_inv s) by apply ram_ok_run, ram_ok_new.
  assert (Hok : path_ok s).
  { apply path_ok_run, path_ok_new. apply Z.ltb_lt. vm_compute. reflexivity. }
  assert (G : get (_caches s) (sha256_hex abc) = None) by (vm_compute; reflexivity).
  assert (H1 : len abc <= _fileLimit s) by (apply Z.leb_le; vm_compute; reflexivity).
  assert (H2 : len abc <= _totalLimit s) by (apply Z.leb_le; vm_compute; reflexivity).
  split; [exact Hinv|]. split; [exact Hok|]. split; [exact G|].
  split; [exact H1|]. split; [exact H2|].
  exact (put_then_get 10 20 abc ["a"%string] "b" false s None None Hinv Hok G H1 H2).
Defined.

(** ** The errors of the three operations *)


(** X6. [put] rejects with the oversized-payload error exactly when no
    backend is configured and the payload is longer than [fileLimit],
    whatever becomes of the writes. *)
Theorem put_oversized_iff (now : Z) (data : Buffer) (paths : list string) (wait : bool)
    (s : Cache) (outcomes : list bool) :
  settle (promise (put now data paths wait s)) outcomes = Throw OversizedPayload <->
  _longterm s = None /\ _fileLimit s < len data.
Proof.
  split.
  - intros H.
    destruct (_longterm s) as [backend|] eqn:Hlt.
    + exfalso. rewrite put_promise in H by (left; congruence).
      destruct (fst (_storeCacheInRAM now (sha256_hex data) data s)) as [inRAM|e] eqn:E.
      * destruct (negb wait && inRAM); cbn in H; [discriminate|].
        destruct (forallb (fun ok => ok) outcomes); discriminate.
      * apply store_throws in E. subst e. discriminate.
    + split; [reflexivity|].
      destruct (Z.lt_ge_cases (_fileLimit s) (len data)) as [Hbig|Hsmall]; [exact Hbig|].
      exfalso. rewrite put_promise in H by (right; lia).
      destruct (fst (_storeCacheInRAM now (sha256_hex data) data s)) as [inRAM|e] eqn:E.
      * destruct (negb wait && inRAM); cbn in H; [discriminate|].
        destruct (forallb (fun ok => ok) outcomes); discriminate.
      * apply store_throws in E. subst e. discriminate.
  - intros [Hlt Hbig]. unfold put. rewrite Hlt.
    destruct (Z.gtb_spec (len data) (_fileLimit s)); [reflexivity | lia].
Qed.

(** ** Payloads at the limits *)

Lemma store_over_totalLimit_state now hash data s :
  cache_inv s ->
  get (_caches s) hash = None -> len data <= _fileLimit s -> _totalLimit s < len data ->
  fst (_storeCacheInRAM now hash data s) = Throw TypeError /\
  _caches (snd (_storeCacheInRAM now hash data s)) = [] /\
  _current (snd (_storeCacheInRAM now hash data s)) = 0.
Proof.
  intros Hinv G Hfile Htotal.
  pose proof (store_payload_over_totalLimit now hash data s Hinv G Hfile Htotal) as Hfst.
  destruct (_storeCacheInRAM now hash data s) as [r s'] eqn:E. cbn [fst snd] in *. subst r.
  apply (store_outcome _ _ _ _ Hinv) in E. tauto.
Qed.

(** X7. With a backend, [put] of a payload that is not resident and longer
    than [fileLimit] leaves the RAM entries and the resident size as they
    were and goes to the long term only: the payload write is started, as is
    the path write of every path of the call not yet mapped to the hash, and
    the promise follows these writes even for a caller that did not ask to
    wait. *)
Theorem put_long_payload_with_backend (now : Z) (data : Buffer) (paths : list string)
    (wait : bool) (s : Cache) (backend : Backend) :
  _longterm s = Some backend ->
  get (_caches s) (sha256_hex data) = None ->
  _fileLimit s < len data ->
  let r := put now data paths wait s in
  promise r = AfterWaiting (sha256_hex data) /\
  _caches (after_put r) = _caches s /\
  _current (after_put r) = _current s /\
  In (writeCache (sha256_hex data) data) (waiting r) /\
  (forall p, In p paths ->
     (forall index, get (_paths s) p <> Some (index, sha256_hex data)) ->
     In (writePath p (sha256_hex data)) (waiting r)).
Proof.
  intros Hlt G Hbig r.
  assert (Hgo : _longterm s <> None \/ len data <= _fileLimit s) by (left; congruence).
  destruct (put_steps now data paths wait s Hgo) as (pi & ps0 & _ & Hafter & Hw).
  cbn zeta in Hafter, Hw. fold r in Hafter, Hw.
  split; [|split; [|split; [|split]]].
  - unfold r. rewrite put_promise by exact Hgo.
    rewrite store_too_large by assumption. cbn. now rewrite andb_false_r.
  - rewrite Hafter. now rewrite store_too_large.
  - rewrite Hafter. now rewrite store_too_large.
  - rewrite Hw, Hlt. unfold pushes_writeCache. rewrite G.
    apply in_or_app. right. now left.
  - intros p Hin Hnot. rewrite Hw. apply in_or_app. left.
    now apply put_paths_writePath with (backend := backend).
Qed.

Lemma put_long_payload_with_backend_witness :
  let s := new_Cache with_folder in
  let r := put 10 abc ["a"%string] false s in
  _longterm s = Some (FileSystem "tests/temp") /\
  get (_caches s) (sha256_hex abc) = None /\
  _fileLimit s < len abc /\
  promise r = AfterWaiting (sha256_hex abc) /\
  _caches (after_put r) = _caches s /\
  In (writeCache (sha256_hex abc) abc) (waiting r).
Proof.
  intros s r.
  assert (H1 : _longterm s = Some (FileSystem "tests/temp")) by reflexivity.
  assert (H2 : get (_caches s) (sha256_hex abc) = None) by reflexivity.
  assert (H3 : _fileLimit s < len abc) by (apply Z.ltb_lt; vm_compute; reflexivity).
  split; [exact H1|]. split; [exact H2|]. split; [exact H3|].
  destruct (put_long_payload_with_backend 10 abc ["a"%string] false s _ H1 H2 H3)
    as (Hp & Hc & _ & Hw & _).
  split; [exact Hp|]. split; [exact Hc | exact Hw].
Defined.



(** X9. On a state whose accumulator counts the resident bytes, a
    read-through of [getByHash] that brings a payload no longer than
    [fileLimit] and longer than [totalLimit] fails with the not-found error
    although the backend answered, and leaves the RAM tier empty. *)
Theorem getByHash_over_totalLimit_empties_RAM (now : Z) (hash : string) (data : Buffer)
    (s : Cache) (backend : Backend) :
  cache_inv s ->
  _longterm s = Some backend ->
  get (_caches s) hash = None ->
  len data <= _fileLimit s ->
  _totalLimit s < len data ->
  fst (getByHash now hash (Some data) s) = Throw NotFound /\
  _caches (snd (getByHash now hash (Some data) s)) = [] /\
  _current (snd (getByHash now hash (Some data) s)) = 0.
Proof.
  intros Hinv Hlt G Hfile Htotal.
  destruct (store_over_totalLimit_state now hash data s Hinv G Hfile Htotal)
    as (Hfst & Hc & H0).
  unfold getByHash. rewrite G, Hlt.
  destruct (_storeCacheInRAM now hash data s) as [[inRAM|e] s1]; cbn [fst snd] in *;
    [discriminate|]. now repeat split.
Qed.

Lemma getByHash_over_totalLimit_empties_RAM_witness :
  let s := snd (set_totalLimit 15 1
                  (run (new_Cache with_folder) [Put 10 [x09] ["a"%string] false])) in
  cache_inv s /\
  _longterm s = Some (FileSystem "tests/temp") /\
  get (_caches s) (sha256_hex de) = None /\
  len de <= _fileLimit s /\ _totalLimit s < len de /\
  keys (_caches s) = [sha256_hex [x09]] /\
  fst (getByHash 20 (sha256_hex de) (Some de) s) = Throw NotFound /\
  _caches (snd (getByHash 20 (sha256_hex de) (Some de) s)) = [].
Proof.
  intros s.
  assert (Hinv : cache_inv s).
  { apply (proj1 (ram_ok_set_totalLimit 15 1 _
                    (proj1 (ram_ok_run [Put 10 [x09] ["a"%string] false] _
                              (ram_ok_new with_folder))))). }
  assert (Hlt : _longterm s = Some (FileSystem "tests/temp")) by (vm_compute; reflexivity).
  assert (G : get (_caches s) (sha256_hex de) = None) by (vm_compute; reflexivity).
  assert (H1 : len de <= _fileLimit s) by (apply Z.leb_le; vm_compute; reflexivity).
  assert (H2 : _totalLimit s < len de) by (apply Z.ltb_lt; vm_compute; reflexivity).
  split; [exact Hinv|]. split; [exact Hlt|]. split; [exact G|].
  split; [exact H1|]. split; [exact H2|]. split; [vm_compute; reflexivity|].
  destruct (getByHash_over_totalLimit_empties_RAM 20 (sha256_hex de) de s _
              Hinv Hlt G H1 H2) as (Hf & Hc & _).
  split; [exact Hf | exact Hc].
Defined.

(** ** The setters *)



(** X11. On a state whose accumulator counts the resident bytes, assigning
    a negative [totalLimit] throws the type error of the eviction loop after
    evicting every resident payload; the negative limit stays in force. *)
Theorem set_totalLimit_negative_throws (now bytes : Z) (s : Cache) :
  cache_inv s ->
  bytes < 0 ->
  fst (set_totalLimit now bytes s) = Throw TypeError /\
  _caches (snd (set_totalLimit now bytes s)) = [] /\
  _current (snd (set_totalLimit now bytes s)) = 0 /\
  _totalLimit (snd (set_totalLimit now bytes s)) = bytes.
Proof.
  intros Hinv Hb. unfold set_totalLimit.
  destruct (_freeSpaceInRAM 0 now (with_totalLimit bytes s)) as [r s1] eqn:E.
  cbn [fst snd].
  apply freeSpace_outcome in E; [|exact Hinv].
  destruct E as ((_ & Hcur) & Hfr & _ & Hr).
  cbn [with_totalLimit _totalLimit] in Hr.
  destruct r as [[]|e].
  - pose proof (total_len_nonneg (_caches s1)). unfold resident_bytes in Hcur. lia.
  - destruct Hr as (-> & Hc & H0 & _). repeat split; try assumption.
    rewrite Hfr. reflexivity.
Qed.

Lemma set_totalLimit_negative_throws_witness :
  let s := run (new_Cache ram_only) [Put 10 abc [] false] in
  cache_inv s /\ -1 < 0 /\
  _current s = 3 /\
  fst (set_totalLimit 30 (-1) s) = Throw TypeError /\
  _caches (snd (set_totalLimit 30 (-1) s)) = [].
Proof.
  intros s.
  assert (Hinv : cache_inv s) by apply ram_ok_run, ram_ok_new.
  split; [exact Hinv|]. split; [lia|]. split; [vm_compute; reflexivity|].
  destruct (set_totalLimit_negative_throws 30 (-1) s Hinv ltac:(lia)) as (H1 & H2 & _).
  split; [exact H1 | exact H2].
Defined.

(** X12. Assigning [fileLimit] evicts nothing. A payload that is resident
    and longer than the new limit is still returned from RAM by [getByHash],
    and [_storeCacheInRAM] still answers [true] for it; without a backend a
    [put] of it is rejected as oversized although it is resident. A payload
    that is not resident and longer than the new limit is not stored. *)
Theorem set_fileLimit_keeps_residents (now bytes : Z) (hash : string) (t : Z)
    (stored : Buffer) (readCache : option Buffer) (s : Cache) :
  get (_caches s) hash = Some (t, stored) ->
  bytes < len stored ->
  let s' := set_fileLimit bytes s in
  _caches s' = _caches s /\ _current s' = _current s /\ _paths s' = _paths s /\
  fst (getByHash now hash readCache s') = Normal stored /\
  fst (_storeCacheInRAM now hash stored s') = Normal true /\
  (_longterm s = None ->
     forall paths wait,
       promise (put now stored paths wait s') = RejectNow OversizedPayload) /\
  (forall other, get (_caches s) other = None ->
     _storeCacheInRAM now other stored s' = (Normal false, s')).
Proof.
  intros G Hbig s'. unfold s', set_fileLimit.
  split; [reflexivity|]. split; [reflexivity|]. split; [reflexivity|].
  split; [|split; [|split]].
  - unfold getByHash. cbn [with_fileLimit _caches]. now rewrite G.
  - unfold _storeCacheInRAM. cbn [with_fileLimit _caches]. now rewrite G.
  - intros Hlt paths wait. unfold put. cbn [with_fileLimit _longterm _fileLimit].
    rewrite Hlt. destruct (Z.gtb_spec (len stored) bytes); [reflexivity | lia].
  - intros other Go. now apply store_too_large.
Qed.

Lemma set_fileLimit_keeps_residents_witness :
  let s := run (new_Cache ram_only) [Put 10 abc ["a"%string] false] in
  get (_caches s) (sha256_hex abc) = Some (10, abc) /\
  2 < len abc /\
  fst (getByHash 20 (sha256_hex abc) None (set_fileLimit 2 s)) = Normal abc /\
  promise (put 20 abc ["a"%string] false (set_fileLimit 2 s)) = RejectNow OversizedPayload.
Proof.
  intros s.
  assert (G : get (_caches s) (sha256_hex abc) = Some (10, abc)) by (vm_compute; reflexivity).
  assert (H : 2 < len abc) by (apply Z.ltb_lt; vm_compute; reflexivity).
  split; [exact G|]. split; [exact H|].
  destruct (set_fileLimit_keeps_residents 20 2 (sha256_hex abc) 10 abc None s G H)
    as (_ & _ & _ & Hget & _ & Hput & _).
  split; [exact Hget|].
  apply Hput. vm_compute. reflexivity.
Defined.

(** ** The default policy on small payloads *)

Lemma In_delete {V : Type} (o : list (string * V)) k e : In e (delete o k) -> In e o.
Proof.
  induction o as [|[k0 v0] o IH]; simpl; [tauto|].
  destruct (String.eqb_spec k k0); simpl; tauto.
Qed.

Lemma In_delete_ne {V : Type} (o : list (string * V)) k k' v :
  In (k', v) o -> k' <> k -> In (k', v) (delete o k).
Proof.
  intros Hin Hne. induction o as [|[k0 v0] o IH]; simpl in *; [tauto|].
  destruct (String.eqb_spec k k0) as [->|Hk].
  - destruct Hin as [E|Hin]; [inversion E; congruence | auto].
  - destruct Hin as [E|Hin]; [now left | right; auto].
Qed.

Lemma default_score_small now k t d :
  0 < len d <= 10000 -> score_of default_scoreFunc now (k, (t, d)) = now - t.
Proof.
  intros Hd. unfold score_of, default_scoreFunc. cbn [fst snd].
  pose proof (ceil_div_spec (len d) 10000 ltac:(lia)) as Hq.
  assert (ceil_div (len d) 10000 = 1) by lia. lia.
Qed.

Lemma evict_oldest_first fuel size now :
  forall s,
  NoDup (keys (_caches s)) ->
  _scoreFunc s = default_scoreFunc ->
  (forall k t d, In (k, (t, d)) (_caches s) -> 0 < len d <= 10000) ->
  let s' := snd (evict_largest_first fuel size now s) in
  (forall e, In e (_caches s') -> In e (_caches s)) /\
  (forall k t d k' t' d',
     In (k, (t, d)) (_caches s) -> ~ In k (keys (_caches s')) ->
     In (k', (t', d')) (_caches s') -> t <= t').
Proof.
  induction fuel as [|fuel IH]; intros s Hnd Hf Hsz; cbn zeta.
  - assert (E : snd (evict_largest_first 0 size now s) = s).
    { simpl. destruct (_current s + size >? _totalLimit s); [|reflexivity].
      destruct (largest_score _ _ _) as [[h [t0 d0]]|]; reflexivity. }
    rewrite E. split; [auto|].
    intros k t d k' t' d' Hin Hout _. exfalso. apply Hout.
    apply (in_map fst) in Hin. exact Hin.
  - simpl evict_largest_first.
    destruct (_current s + size >? _totalLimit s).
    2:{ cbn [snd]. split; [auto|].
        intros k t d k' t' d' Hin Hout _. exfalso. apply Hout.
        apply (in_map fst) in Hin. exact Hin. }
    destruct (largest_score (_scoreFunc s) now (_caches s)) as [[hash [tv dv]]|] eqn:E.
    2:{ cbn [snd]. split; [auto|].
        intros k t d k' t' d' Hin Hout _. exfalso. apply Hout.
        apply (in_map fst) in Hin. exact Hin. }
    destruct (largest_score_max _ _ _ _ E) as [Hv Hmax].
    specialize (IH (with_ram (_current s - len dv) (delete (_caches s) hash) s)).
    cbn [with_ram _caches _scoreFunc] in IH.
    destruct IH as [Hsub Hold].
    + now apply NoDup_keys_delete.
    + exact Hf.
    + intros k t d Hin. apply In_delete in Hin. now apply (Hsz k t d).
    + split.
      * intros e He. apply Hsub in He. now apply In_delete in He.
      * intros k t d k' t' d' Hin Hout Hin'.
        destruct (String.eqb_spec k hash) as [->|Hne].
        -- assert (Htd : (t, d) = (tv, dv)).
           { apply (In_get _ _ _ Hnd) in Hin. apply (In_get _ _ _ Hnd) in Hv. congruence. }
           inversion Htd; subst t d.
           pose proof Hin' as Hin0. apply Hsub in Hin0. apply In_delete in Hin0.
           pose proof (Hmax _ Hin0) as Hle. rewrite Hf in Hle.
           rewrite (default_score_small now k' t' d') in Hle by now apply (Hsz k' t' d').
           rewrite (default_score_small now hash tv dv) in Hle by now apply (Hsz hash tv dv).
           lia.
        -- apply (Hold k t d k' t' d'); [now apply In_delete_ne | exact Hout | exact Hin'].
Qed.

(** X13. With the default scoring function and resident payloads of 1 to
    10000 bytes, the eviction pass removes the least recently used first:
    every entry it evicts carries a time stamp no later than the time stamp of
    every entry it keeps (and it changes no entry that it keeps). *)
Theorem default_policy_evicts_least_recently_used (size now : Z) (s : Cache) :
  cache_inv s ->
  _scoreFunc s = default_scoreFunc ->
  (forall k t d, In (k, (t, d)) (_caches s) -> 0 < len d <= 10000) ->
  let s' := snd (_freeSpaceInRAM size now s) in
  (forall e, In e (_caches s') -> In e (_caches s)) /\
  (forall k t d k' t' d',
     In (k, (t, d)) (_caches s) -> ~ In k (keys (_caches s')) ->
     In (k', (t', d')) (_caches s') -> t <= t').
Proof.
  intros [Hnd _] Hf Hsz. cbn zeta. rewrite freeSpace_refines by exact Hnd.
  now apply evict_oldest_first.
Qed.

Lemma default_policy_evicts_least_recently_used_witness :
  let s := run (new_Cache ram_only)
               [Put 10 abc [] false; Put 20 de [] false; GetByHash 30 (sha256_hex abc) None] in
  cache_inv s /\ _scoreFunc s = default_scoreFunc /\
  (forall k t d, In (k, (t, d)) (_caches s) -> 0 < len d <= 10000) /\
  map (fun kv => (fst (snd kv), snd (snd kv))) (_caches s) = [(30, abc); (20, de)] /\
  map (fun kv => (fst (snd kv), snd (snd kv))) (_caches (snd (_freeSpaceInRAM 1 40 s)))
  = [(30, abc)] /\
  (forall k t d k' t' d',
     In (k, (t, d)) (_caches s) -> ~ In k (keys (_caches (snd (_freeSpaceInRAM 1 40 s)))) ->
     In (k', (t', d')) (_caches (snd (_freeSpaceInRAM 1 40 s))) -> t <= t').
Proof.
  intros s.
  assert (Hinv : cache_inv s) by apply ram_ok_run, ram_ok_new.
  assert (Hf : _scoreFunc s = default_scoreFunc) by reflexivity.
  assert (Hsz : forall k t d, In (k, (t, d)) (_caches s) -> 0 < len d <= 10000).
  { intros k t d Hin.
    assert (Hd : In d [abc; de]).
    { apply (in_map (fun kv => snd (snd kv))) in Hin. cbn [snd] in Hin.
      revert Hin. vm_compute. tauto. }
    destruct Hd as [<-|[<-|[]]]; vm_compute; split; reflexivity || discriminate. }
  split; [exact Hinv|]. split; [exact Hf|]. split; [exact Hsz|].
  split; [vm_compute; reflexivity|]. split; [vm_compute; reflexivity|].
  exact (proj2 (default_policy_evicts_least_recently_used 1 40 s Hinv Hf Hsz)).
Defined.

(** ** Paths and payloads are kept apart *)

Lemma getByHash_paths now hash readCache s :
  _paths (snd (getByHash now hash readCache s)) = _paths s /\
  _pathIndex (snd (getByHash now hash readCache s)) = _pathIndex s.
Proof. destruct (getByHash_frame now hash readCache s) as (c & cs & ->). now split. Qed.

(** X14. Storing a path never touches the payloads or the resident size;
    storing or evicting payloads, a lookup by hash and a [totalLimit]
    assignment never touch the paths or their counter, so a path can outlive
    its payload; and a lookup by a resident path does not move it in the
    window. *)
Theorem tiers_do_not_touch_each_other (now : Z) (path hash : string) (data : Buffer)
    (bytes : Z) (readPath : option string) (readCache : option Buffer) (s : Cache) :
  (_caches (_storePathInRAM path hash s) = _caches s /\
   _current (_storePathInRAM path hash s) = _current s) /\
  (_paths (snd (_storeCacheInRAM now hash data s)) = _paths s /\
   _pathIndex (snd (_storeCacheInRAM now hash data s)) = _pathIndex s) /\
  (_paths (snd (getByHash now hash readCache s)) = _paths s /\
   _pathIndex (snd (getByHash now hash readCache s)) = _pathIndex s) /\
  (_paths (snd (set_totalLimit now bytes s)) = _paths s /\
   _pathIndex (snd (set_totalLimit now bytes s)) = _pathIndex s) /\
  (forall index h, get (_paths s) path = Some (index, h) ->
     _paths (snd (getByPath now path readPath readCache s)) = _paths s /\
     _pathIndex (snd (getByPath now path readPath readCache s)) = _pathIndex s).
Proof.
  split; [|split; [|split; [|split]]].
  - rewrite storePath_frame. now split.
  - destruct (store_frame now hash data s) as (c & cs & ->). now split.
  - apply getByHash_paths.
  - unfold set_totalLimit.
    destruct (freeSpace_frame 0 now (with_totalLimit bytes s)) as (c & cs & ->). now split.
  - intros index h G. unfold getByPath. rewrite G. apply getByHash_paths.
Qed.

(** ** [getByPath] *)

Lemma storePath_new_index path hash s :
  path_ok s -> get (_paths s) path = None ->
  get (_paths (_storePathInRAM path hash s)) path = Some (_pathIndex s, hash).
Proof.
  intros [HL Hinv] G.
  destruct (Z.lt_ge_cases (Z.of_nat (List.length (_paths s))) (_pathLimit s)) as [Hroom|Hfull].
  - rewrite storePath_new_room by assumption. now apply get_app_new.
  - destruct (storePath_new_full path hash s Hinv HL G Hfull)
      as (victim & vhash & rest & E & _ & _ & ->).
    cbn [with_path_tier _paths]. apply get_app_new.
    rewrite E in G. cbn [get] in G.
    destruct (path =? victim)%string; [discriminate | exact G].
Qed.

(** X15. [getByPath] resolves a path that is resident through RAM alone: it
    is [getByHash] of the hash the path is mapped to. For a path that is not
    resident, on an instance with a backend and a path window in order, a
    path read that succeeds puts the path back in RAM under the next index,
    so that the next lookup of the path no longer needs the path read;
    without a backend, or when the path read fails, the lookup fails with the
    not-found error and changes nothing. *)
Theorem getByPath_resolution (now now' : Z) (path hash : string)
    (readPath : option string) (readCache readCache' : option Buffer) (s : Cache) :
  (forall index, get (_paths s) path = Some (index, hash) ->
     getByPath now path readPath readCache s = getByHash now hash readCache s) /\
  (forall backend, path_ok s -> get (_paths s) path = None ->
     _longterm s = Some backend ->
     let s' := snd (getByPath now path (Some hash) readCache s) in
     get (_paths s') path = Some (_pathIndex s, hash) /\
     getByPath now' path None readCache' s' = getByHash now' hash readCache' s') /\
  (get (_paths s) path = None -> _longterm s = None \/ readPath = None ->
     getByPath now path readPath readCache s = (Throw NotFound, s)).
Proof.
  split; [|split].
  - intros index G. unfold getByPath. now rewrite G.
  - intros backend Hok G Hlt s'.
    assert (Hp : get (_paths s') path = Some (_pathIndex s, hash)).
    { unfold s', getByPath. rewrite G, Hlt.
      rewrite (proj1 (getByHash_paths now hash readCache (_storePathInRAM path hash s))).
      now apply storePath_new_index. }
    split; [exact Hp|]. unfold getByPath at 1. now rewrite Hp.
  - intros G [Hlt| ->]; unfold getByPath; rewrite G.
    + now rewrite Hlt.
    + destruct (_longterm s); reflexivity.
Qed.

Lemma getByPath_resolution_witness :
  let s := run (new_Cache with_folder) [Put 10 de [] false] in
  path_ok s /\ get (_paths s) "a" = None /\
  _longterm s = Some (FileSystem "tests/temp") /\
  fst (getByPath 20 "a" (Some (sha256_hex de)) None s) = Normal de /\
  get (_paths (snd (getByPath 20 "a" (Some (sha256_hex de)) None s))) "a"
  = Some (_pathIndex s, sha256_hex de) /\
  getByPath 20 "b" None None s = (Throw NotFound, s).
Proof.
  intros s.
  assert (Hok : path_ok s).
  { apply path_ok_run, path_ok_new. apply Z.ltb_lt. vm_compute. reflexivity. }
  assert (G : get (_paths s) "a" = None) by (vm_compute; reflexivity).
  assert (Hlt : _longterm s = Some (FileSystem "tests/temp")) by (vm_compute; reflexivity).
  split; [exact Hok|]. split; [exact G|]. split; [exact Hlt|].
  split; [vm_compute; reflexivity|]. split.
  - exact (proj1 (proj1 (proj2 (getByPath_resolution 20 30 "a" (sha256_hex de) None None None s))
                    _ Hok G Hlt)).
  - apply (proj2 (proj2 (getByPath_resolution 20 30 "b" (sha256_hex de) None None None s))).
    + vm_compute. reflexivity.
    + now right.
Defined.

(** ** Without a backend *)



(** ** The constructor *)


(** ** The clear of the adapter *)



(** ** From one instance to the next through the folder *)

Lemma fulfil_paths hash data p :
  forall ws folder,
  Forall (write_of hash data) ws ->
  In (writePath p hash) ws \/ get (paths_dir folder) p = Some (Buffer_from_hex hash) ->
  get (paths_dir (fold_left fulfil ws folder)) p = Some (Buffer_from_hex hash).
Proof.
  induction ws as [|w ws IH]; intros folder Hall H; cbn [fold_left].
  - destruct H as [[]|H]. exact H.
  - inversion Hall as [|? ? Hw Hws]; subst. apply IH; [exact Hws|].
    destruct Hw as [[q ->]| ->]; cbn [fulfil longterm_writePath longterm_writeCache paths_dir].
    + destruct (String.eqb_spec p q) as [->|Hne].
      * right. apply get_set_eq.
      * destruct H as [[E|Hin]|Hg]; [congruence | now left |].
        right. now rewrite get_set_ne.
    + destruct H as [[E|Hin]|Hg]; [discriminate | now left | now right].
Qed.

Lemma fulfil_caches hash data :
  forall ws folder,
  Forall (write_of hash data) ws ->
  In (writeCache hash data) ws \/ get (caches_dir folder) hash = Some data ->
  get (caches_dir (fold_left fulfil ws folder)) hash = Some data.
Proof.
  induction ws as [|w ws IH]; intros folder Hall H; cbn [fold_left].
  - destruct H as [[]|H]. exact H.
  - inversion Hall as [|? ? Hw Hws]; subst. apply IH; [exact Hws|].
    destruct Hw as [[q ->]| ->]; cbn [fulfil longterm_writePath longterm_writeCache caches_dir].
    + destruct H as [[E|Hin]|Hg]; [discriminate | now left | now right].
    + right. apply get_set_eq.
Qed.

Lemma put_waiting_writes now data paths wait s :
  (_longterm s <> None \/ len data <= _fileLimit s) ->
  Forall (write_of (sha256_hex data) data) (waiting (put now data paths wait s)).
Proof.
  intros Hgo.
  destruct (put_steps now data paths wait s Hgo) as (pi & ps0 & _ & _ & ->).
  apply Forall_app. split.
  - apply put_paths_writes. constructor.
  - destruct (_longterm s); [|constructor].
    destruct (pushes_writeCache _ _ _); [|constructor].
    constructor; [now right | constructor].
Qed.



(** ** Any scoring function *)

Lemma evict_highest_scores fuel size now :
  forall s,
  NoDup (keys (_caches s)) ->
  let s' := snd (evict_largest_first fuel size now s) in
  (forall e, In e (_caches s') -> In e (_caches s)) /\
  (forall k v e',
     In (k, v) (_caches s) -> ~ In k (keys (_caches s')) -> In e' (_caches s') ->
     score_of (_scoreFunc s) now e' <= score_of (_scoreFunc s) now (k, v)).
Proof.
  induction fuel as [|fuel IH]; intros s Hnd; cbn zeta.
  - assert (E : snd (evict_largest_first 0 size now s) = s).
    { simpl. destruct (_current s + size >? _totalLimit s); [|reflexivity].
      destruct (largest_score _ _ _) as [[h [t0 d0]]|]; reflexivity. }
    rewrite E. split; [auto|].
    intros k v e' Hin Hout _. exfalso. apply Hout.
    apply (in_map fst) in Hin. exact Hin.
  - simpl evict_largest_first.
    destruct (_current s + size >? _totalLimit s).
    2:{ cbn [snd]. split; [auto|].
        intros k v e' Hin Hout _. exfalso. apply Hout.
        apply (in_map fst) in Hin. exact Hin. }
    destruct (largest_score (_scoreFunc s) now (_caches s)) as [[hash [tv dv]]|] eqn:E.
    2:{ cbn [snd]. split; [auto|].
        intros k v e' Hin Hout _. exfalso. apply Hout.
        apply (in_map fst) in Hin. exact Hin. }
    destruct (largest_score_max _ _ _ _ E) as [Hv Hmax].
    specialize (IH (with_ram (_current s - len dv) (delete (_caches s) hash) s)).
    cbn [with_ram _caches _scoreFunc] in IH.
    destruct IH as [Hsub Hold]; [now apply NoDup_keys_delete|].
    split.
    + intros e He. apply Hsub in He. now apply In_delete in He.
    + intros k v e' Hin Hout Hin'.
      destruct (String.eqb_spec k hash) as [->|Hne].
      * assert (Hvv : v = (tv, dv)).
        { apply (In_get _ _ _ Hnd) in Hin. apply (In_get _ _ _ Hnd) in Hv. congruence. }
        subst v. apply Hmax. apply Hsub in Hin'. now apply In_delete in Hin'.
      * apply (Hold k v e'); [now apply In_delete_ne | exact Hout | exact Hin'].
Qed.

(** X20. Assigning a scoring function evicts nothing and changes no limit,
    and the passes that follow use it: on a state whose accumulator counts
    the resident bytes, every entry such a pass evicts scores, under the
    function in force, at least as much as every entry the pass keeps, and
    the entries kept are unchanged. *)
Theorem scoreFunc_rules_the_next_pass (func : Z -> Z -> Z) (size now : Z) (s : Cache) :
  cache_inv s ->
  let s0 := set_scoreFunc func s in
  let s' := snd (_freeSpaceInRAM size now s0) in
  (_caches s0 = _caches s /\ _current s0 = _current s /\ _paths s0 = _paths s /\
   _totalLimit s0 = _totalLimit s /\ _fileLimit s0 = _fileLimit s) /\
  (forall e, In e (_caches s') -> In e (_caches s)) /\
  (forall k t d k' t' d',
     In (k, (t, d)) (_caches s) -> ~ In k (keys (_caches s')) ->
     In (k', (t', d')) (_caches s') ->
     func (now - t') (len d') <= func (now - t) (len d)).
Proof.
  intros [Hnd _] s0 s'. split; [repeat split|].
  assert (Hnd0 : NoDup (keys (_caches s0))) by exact Hnd.
  unfold s'. rewrite freeSpace_refines by exact Hnd0.
  destruct (evict_highest_scores (List.length (_caches s0)) size now s0 Hnd0) as [Hsub Hmax].
  split; [exact Hsub|].
  intros k t d k' t' d' Hin Hout Hin'.
  exact (Hmax k (t, d) (k', (t', d')) Hin Hout Hin').
Qed.

Lemma scoreFunc_rules_the_next_pass_witness :
  let s := run (new_Cache ram_only) [Put 10 abc [] false; Put 20 de [] false] in
  let largest_first := fun (age size : Z) => size in
  cache_inv s /\
  map (fun kv => snd (snd kv)) (_caches (snd (_freeSpaceInRAM 1 40 s))) = [de] /\
  map (fun kv => snd (snd kv))
      (_caches (snd (_freeSpaceInRAM 1 40 (set_scoreFunc (fun age size => - size) s))))
  = [abc] /\
  (forall e, In e (_caches (snd (_freeSpaceInRAM 1 40 (set_scoreFunc largest_first s)))) ->
             In e (_caches s)).
Proof.
  intros s largest_first.
  assert (Hinv : cache_inv s) by apply ram_ok_run, ram_ok_new.
  split; [exact Hinv|]. split; [vm_compute; reflexivity|].
  split; [vm_compute; reflexivity|].
  exact (proj1 (proj2 (scoreFunc_rules_the_next_pass largest_first 1 40 s Hinv))).
Defined.

(** ** Putting the same thing again *)

Lemma put_paths_all_mapped hash paths :
  forall s w,
  (forall p, In p paths -> exists index, get (_paths s) p = Some (index, hash)) ->
  fold_left (put_path hash) paths (s, w) = (s, w).
Proof.
  induction paths as [|q paths IH]; intros s w H; cbn [fold_left]; [reflexivity|].
  destruct (H q (or_introl eq_refl)) as (index & G).
  unfold put_path at 2. rewrite G, String.eqb_refl. cbn [negb].
  apply IH. intros p Hp. apply H. now right.
Qed.

(** X21. A [put] whose paths are all mapped to the hash of the payload
    already leaves the paths and their indices as they are and starts no path
    write: the only write it can start is the payload write. *)
Theorem put_mapped_paths_again (now : Z) (data : Buffer) (paths : list string) (wait : bool)
    (s : Cache) :
  (forall p, In p paths -> exists index, get (_paths s) p = Some (index, sha256_hex data)) ->
  let r := put now data paths wait s in
  _paths (after_put r) = _paths s /\
  _pathIndex (after_put r) = _pathIndex s /\
  (forall w, In w (waiting r) -> w = writeCache (sha256_hex data) data).
Proof.
  intros Hmapped r. unfold r, put.
  destruct (match _longterm s with Some _ => false | None => true end
            && (len data >? _fileLimit s)).
  { cbn [after_put waiting]. split; [reflexivity|]. split; [reflexivity|].
    intros w Hw. destruct Hw. }
  rewrite put_paths_all_mapped by exact Hmapped.
  destruct (store_frame now (sha256_hex data) data s) as (c & cs & E).
  destruct (_storeCacheInRAM now (sha256_hex data) data s) as [[inRAM|e] s2];
    cbn [snd] in E; subst s2; cbn [after_put waiting];
    (split; [reflexivity|]; split; [reflexivity|]);
    intros w Hw; (destruct (_longterm s); [destruct (pushes_writeCache _ _ _)|]);
    cbn in Hw; intuition congruence.
Qed.

Lemma put_mapped_paths_again_witness :
  let s := after_put (put 10 de ["a"; "b"]%string false (new_Cache with_folder)) in
  (forall p, In p ["a"; "b"]%string ->
     exists index, get (_paths s) p = Some (index, sha256_hex de)) /\
  waiting (put 10 de ["a"; "b"]%string false (new_Cache with_folder))
  = [writePath "a" (sha256_hex de); writePath "b" (sha256_hex de);
     writeCache (sha256_hex de) de] /\
  _paths (after_put (put 20 de ["a"; "b"]%string false s)) = _paths s /\
  (forall w, In w (waiting (put 20 de ["a"; "b"]%string false s)) ->
     w = writeCache (sha256_hex de) de).
Proof.
  intros s.
  assert (Hm : forall p, In p ["a"; "b"]%string ->
                 exists index, get (_paths s) p = Some (index, sha256_hex de)).
  { intros p [<-|[<-|[]]]; [exists 0 | exists 1]; vm_compute; reflexivity. }
  split; [exact Hm|]. split; [vm_compute; reflexivity|].
  destruct (put_mapped_paths_again 20 de ["a"; "b"]%string false s Hm) as (Hp & _ & Hw).
  split; [exact Hp | exact Hw].
Defined.
